(** * The LRU node cache of iavl (cache/cache.go)

  A shallow embedding of [lruCache] and of its five operations
  [Add], [Get], [Has], [Remove] and [Len], followed by the properties
  the cache's description states about them.

  The cache is a Go [container/list] list of elements (front = most
  recently used) together with a [sync.Map] from the key string to the
  list element holding the node with that key.  The index stores
  pointers into the list, so the embedding keeps the elements in a
  store addressed by pointers and the list as the sequence of the
  pointers linked into it.

  The operations are embedded as they run one at a time: every
  operation takes and releases the mutex inside its own body, so the
  mutex is not part of the state. *)

From Stdlib Require Import ZArith Lia.
From Stdlib Require Import Strings.Byte Strings.String.
From stdpp Require Import base option list gmap sets strings.

Set Default Proof Using "Type".
#[local] Set Warnings "-clear-no-such-hyp".

(** ** Nodes *)

(** The [Node] interface: a value that yields its key, a byte slice. *)
Class Node (A : Type) := GetKey : A -> list byte.

(** The conversion [string(b)] of a byte slice. *)
Definition bytes_to_string (b : list byte) : string := string_of_list_byte b.

(** Modelled from the spec: [ibytes.UnsafeBytesToStr] of the package
  internal/bytes, which is not among the sources.  The index key is "a
  copy (or immutable view) of the Entry's key" and keys are compared
  "by exact byte-sequence equality": the view has the bytes of the
  slice, as the copying conversion has. *)
Definition UnsafeBytesToStr (b : list byte) : string := string_of_list_byte b.

(** ** Outcomes *)

(** An operation returns a value or panics. *)
Inductive outcome (X : Type) : Type :=
| Ret (x : X)
| Panic.
Arguments Ret {X} x.
Arguments Panic {X}.

(** Pointers to list elements. *)
Abbreviation ptr := nat.

(** ** container/list *)

Module list.
Section container.
Context {A : Type}.

(** A list and the elements allocated for it.  [Value] is the field
    [Element.Value] of every element allocated so far: an [any] that
    holds a node, or nil.  [order] is the chain of the elements linked
    into the list, from the front to the back.  [fresh] is the next
    address an allocation returns. *)
Record List : Type := mkList {
  Value : gmap ptr (option A);
  order : list ptr;
  fresh : ptr
}.

(** [list.New()] *)
Definition New : List := mkList ∅ [] 0.

(** [l.Len()] *)
Definition Len (l : List) : Z := Z.of_nat (length (order l)).

(** [l.Back()]: the last element, or nil. *)
Definition Back (l : List) : option ptr := last (order l).

(** [l.PushFront(v)]: a new element holding [v], linked at the front. *)
Definition PushFront (v : option A) (l : List) : ptr * List :=
  let e := fresh l in
  (e, mkList (<[e := v]> (Value l)) (e :: order l) (S e)).

(** Unlinking one element from the chain. *)
Definition unlink (e : ptr) (es : list ptr) : list ptr :=
  filter (λ x, x ≠ e) es.

(** [l.MoveToFront(e)]: nothing happens when [e] is not an element
    of [l]. *)
Definition MoveToFront (e : ptr) (l : List) : List :=
  if bool_decide (e ∈ order l)
  then mkList (Value l) (e :: unlink e (order l)) (fresh l)
  else l.

(** [l.Remove(e)]: unlinks [e] when it is an element of [l], and
    returns [e.Value] in both cases.  Reading through a pointer that
    addresses no element is a nil dereference. *)
Definition Remove (e : ptr) (l : List) : outcome (option A) * List :=
  match Value l !! e with
  | Some v => (Ret v, mkList (Value l) (unlink e (order l)) (fresh l))
  | None => (Panic, l)
  end.
End container.
Arguments List A : clear implicits.
End list.

(** ** The cache *)

Section cache.
Context {A : Type} `{Node A}.

Record lruCache : Type := mklruCache {
  dict : gmap string ptr;
  maxElementCount : Z;
  ll : list.List A
}.

(** Operations run on the cache, and return or panic; what was
    written before a panic stays written. *)
Definition M (X : Type) : Type := lruCache -> outcome X * lruCache.

Global Instance M_ret : MRet M := λ X x c, (Ret x, c).
Global Instance M_bind : MBind M := λ X Y k m c,
  match m c with
  | (Ret x, c') => k x c'
  | (Panic, c') => (Panic, c')
  end.

Definition panic {X : Type} : M X := λ c, (Panic, c).

(** *** The fields of the cache *)

Definition set_dict (d : gmap string ptr) (c : lruCache) : lruCache :=
  mklruCache d (maxElementCount c) (ll c).
Definition set_ll (l : list.List A) (c : lruCache) : lruCache :=
  mklruCache (dict c) (maxElementCount c) l.

Definition dict_Load (key : string) : M (option ptr) :=
  λ c, (Ret (dict c !! key), c).
Definition dict_Store (key : string) (e : ptr) : M unit :=
  λ c, (Ret (), set_dict (<[key := e]> (dict c)) c).
Definition dict_Delete (key : string) : M unit :=
  λ c, (Ret (), set_dict (delete key (dict c)) c).

Definition get_maxElementCount : M Z := λ c, (Ret (maxElementCount c), c).

Definition ll_Len : M Z := λ c, (Ret (list.Len (ll c)), c).
Definition ll_Back : M (option ptr) := λ c, (Ret (list.Back (ll c)), c).
Definition ll_PushFront (v : option A) : M ptr :=
  λ c, let '(e, l) := list.PushFront v (ll c) in (Ret e, set_ll l c).
Definition ll_MoveToFront (e : ptr) : M unit :=
  λ c, (Ret (), set_ll (list.MoveToFront e (ll c)) c).
(** [c.ll.Remove(e)], for an [e] that may be nil. *)
Definition ll_Remove (e : option ptr) : M (option A) :=
  λ c, match e with
       | Some e => let '(r, l) := list.Remove e (ll c) in (r, set_ll l c)
       | None => (Panic, c)
       end.

(** Reading [ele.Value]. *)
Definition load_Value (ele : ptr) : M (option A) :=
  λ c, match list.Value (ll c) !! ele with
       | Some v => (Ret v, c)
       | None => (Panic, c)
       end.
(** The assignment [ele.Value = v]. *)
Definition store_Value (ele : ptr) (v : option A) : M unit :=
  λ c, match list.Value (ll c) !! ele with
       | Some _ =>
           (Ret (), set_ll (list.mkList (<[ele := v]> (list.Value (ll c)))
                              (list.order (ll c)) (list.fresh (ll c))) c)
       | None => (Panic, c)
       end.

(** The type assertion [v.(Node)]: it panics on nil. *)
Definition assert_Node (v : option A) : M A :=
  match v with
  | Some n => mret n
  | None => panic
  end.

(** Calling a method of a [Node] that may be nil. *)
Definition node_GetKey (node : option A) : M (list byte) :=
  match node with
  | Some n => mret (GetKey n)
  | None => panic
  end.

(** *** The operations *)

Definition New (maxElementCount : Z) : lruCache :=
  mklruCache ∅ maxElementCount list.New.

Definition remove (e : option ptr) : M (option A) :=
  v ← ll_Remove e;
  removed ← assert_Node v;
  dict_Delete (UnsafeBytesToStr (GetKey removed));;
  mret (Some removed).

Definition removeWithKey (e : option ptr) (key : string) : M (option A) :=
  v ← ll_Remove e;
  removed ← assert_Node v;
  dict_Delete key;;
  mret (Some removed).

Definition Add (node : option A) : M (option A) :=
  k ← node_GetKey node;
  let key := bytes_to_string k in
  e ← dict_Load key;
  match e with
  | Some ele =>
      ll_MoveToFront ele;;
      old ← load_Value ele;
      store_Value ele node;;
      n ← assert_Node old;
      mret (Some n)
  | None =>
      ele ← ll_PushFront node;
      dict_Store key ele;;
      len ← ll_Len;
      max ← get_maxElementCount;
      if (len >? max)%Z then
        oldest ← ll_Back;
        remove oldest
      else mret None
  end.

Definition Get (key : list byte) : M (option A) :=
  e ← dict_Load (bytes_to_string key);
  match e with
  | Some ele =>
      ll_MoveToFront ele;;
      v ← load_Value ele;
      n ← assert_Node v;
      mret (Some n)
  | None => mret None
  end.

Definition Has (key : list byte) : M bool :=
  e ← dict_Load (bytes_to_string key);
  mret (bool_decide (is_Some e)).

Definition Len : M Z := ll_Len.

Definition Remove (key : list byte) : M (option A) :=
  let keyS := bytes_to_string key in
  e ← dict_Load keyS;
  match e with
  | Some elem => removeWithKey (Some elem) keyS
  | None => mret None
  end.

End cache.
Arguments lruCache A : clear implicits.

(** ** Observing a cache *)

Section observe.
Context {A : Type} `{Node A}.

(** The key of a node, as the index has it. *)
Definition skey (n : A) : string := bytes_to_string (GetKey n).

(** The node an element holds. *)
Definition node_at (c : lruCache A) (e : ptr) : option A :=
  mjoin (list.Value (ll c) !! e).

(** The nodes in the list, from the front to the back. *)
Definition entries (c : lruCache A) : list A :=
  omap (node_at c) (list.order (ll c)).

(** The keys of the nodes in the list, from the front to the back. *)
Definition keys (c : lruCache A) : list string := skey <$> entries c.

(** The state an operation leaves and what it returns. *)
Definition state_of {X} (r : outcome X * lruCache A) : lruCache A := r.2.
Definition result_of {X} (r : outcome X * lruCache A) : outcome X := r.1.

(** *** Well-formed caches

    The list has no element twice; every element of the list holds a
    node, and the index sends the key of that node to the element;
    every entry of the index is an element of the list holding a node
    with the entry's key; no allocated element is at or after the next
    free address. *)
Record wf (c : lruCache A) : Prop := mkwf {
  wf_NoDup : NoDup (list.order (ll c));
  wf_order : forall e, e ∈ list.order (ll c) ->
    exists n, list.Value (ll c) !! e = Some (Some n) ∧ dict c !! skey n = Some e;
  wf_dict : forall k e, dict c !! k = Some e ->
    e ∈ list.order (ll c) ∧
    exists n, list.Value (ll c) !! e = Some (Some n) ∧ skey n = k;
  wf_fresh : forall e, is_Some (list.Value (ll c) !! e) -> e < list.fresh (ll c)
}.

(** *** The states the operations build *)

(** A new element holding [n] at the front, registered under its key. *)
Definition pushed (n : A) (c : lruCache A) : lruCache A :=
  let e := list.fresh (ll c) in
  mklruCache (<[skey n := e]> (dict c)) (maxElementCount c)
    (list.mkList (<[e := Some n]> (list.Value (ll c)))
       (e :: list.order (ll c)) (S e)).

(** Element [e] out of the list and key [k] out of the index. *)
Definition unlinked (k : string) (e : ptr) (c : lruCache A) : lruCache A :=
  mklruCache (delete k (dict c)) (maxElementCount c)
    (list.mkList (list.Value (ll c)) (list.unlink e (list.order (ll c)))
       (list.fresh (ll c))).

(** Element [e] moved to the front. *)
Definition fronted (e : ptr) (c : lruCache A) : lruCache A :=
  mklruCache (dict c) (maxElementCount c)
    (list.mkList (list.Value (ll c)) (e :: list.unlink e (list.order (ll c)))
       (list.fresh (ll c))).

(** Element [e] moved to the front and holding [n]. *)
Definition overwritten (e : ptr) (n : A) (c : lruCache A) : lruCache A :=
  mklruCache (dict c) (maxElementCount c)
    (list.mkList (<[e := Some n]> (list.Value (ll c)))
       (e :: list.unlink e (list.order (ll c))) (list.fresh (ll c))).


(** The length of the list, as a number of elements. *)
Definition count (c : lruCache A) : nat := length (list.order (ll c)).

(** A well-formed cache of capacity [C] that holds no more than that. *)
Definition bounded (C : Z) (c : lruCache A) : Prop :=
  wf c ∧ maxElementCount c = C ∧ (Z.of_nat (count c) <= Z.max C 0)%Z.

(** A bounded cache whose keys are among [seen], and are all of [seen]
    unless the cache is full. *)
Definition tracked (C : Z) (seen : gset string) (c : lruCache A) : Prop :=
  bounded C c ∧ list_to_set (keys c) ⊆ seen ∧
  (Z.of_nat (count c) = Z.max C 0 ∨ list_to_set (keys c) = seen).

(** *** Sequences of operations *)

(** A call of one of the operations. *)
Inductive op : Type :=
| OpAdd (node : option A)
| OpGet (key : list byte)
| OpHas (key : list byte)
| OpRemove (key : list byte)
| OpLen.

(** Running a call and dropping what it returns. *)
Definition exec (o : op) : M unit :=
match o with
| OpAdd node => Add node;; mret ()
| OpGet key => Get key;; mret ()
| OpHas key => Has key;; mret ()
| OpRemove key => Remove key;; mret ()
| OpLen => Len;; mret ()
end.

(** Running calls one after the other; a panic ends the run. *)
Fixpoint run (ops : list op) : M unit :=
match ops with
| [] => mret ()
| o :: ops => exec o;; run ops
end.

(** Does the call pass a node that is not nil? *)
Definition nonnil (o : op) : bool :=
match o with
| OpAdd None => false
| _ => true
end.

(** Adding nodes one after the other, keeping what every [Add] returns. *)
Fixpoint AddAll (ns : list A) : M (list (option A)) :=
match ns with
| [] => mret []
| n :: ns => r ← Add (Some n); rs ← AddAll ns; mret (r :: rs)
end.

(** A call that only reads: [Get], [Has] or [Len]. *)
Definition is_read (o : op) : bool :=
  match o with
  | OpGet _ | OpHas _ | OpLen => true
  | OpAdd _ | OpRemove _ => false
  end.

(** A call that only reads, and does not name the key [k]. *)
Definition reads_away (k : string) (o : op) : bool :=
  match o with
  | OpGet key | OpHas key => bool_decide (bytes_to_string key ≠ k)
  | OpLen => true
  | OpAdd _ | OpRemove _ => false
  end.

(** Adding nodes one after the other, with calls run before every
    [Add], keeping what every [Add] returns. *)
Fixpoint AddAllWith (steps : list (list op * A)) : M (list (option A)) :=
  match steps with
  | [] => mret []
  | (before, n) :: steps =>
      run before;; r ← Add (Some n); rs ← AddAllWith steps; mret (r :: rs)
  end.

End observe.
Arguments op A : clear implicits.

(** ** A node type to run the cache on *)

Record item : Type := mkitem { item_key : list byte; item_val : nat }.

Global Instance item_Node : Node item := item_key.

(** Three nodes with the keys "a", "b" and "c", and a second node with
    the key "a". *)
Definition na : item := mkitem [x61] 1.
Definition nb : item := mkitem [x62] 2.
Definition nc : item := mkitem [x63] 3.
Definition na' : item := mkitem [x61] 7.

(** ** Chains of elements *)

Section chains.
Context {B : Type}.
Implicit Types (e b : ptr) (es : list ptr).

Lemma unlink_absent e es : e ∉ es -> list.unlink e es = es.
Proof.
  intros He. unfold list.unlink.
  induction es as [|x es IH]; [done|].
  apply not_elem_of_cons in He as [Hx Hes].
  rewrite filter_cons_True by congruence. by rewrite IH.
Qed.

Lemma unlink_elem_of e x es : x ∈ list.unlink e es <-> x ≠ e ∧ x ∈ es.
Proof. unfold list.unlink. by rewrite list_elem_of_filter. Qed.

Lemma unlink_NoDup e es : NoDup es -> NoDup (list.unlink e es).
Proof. apply NoDup_filter. Qed.

Lemma unlink_length e es :
  NoDup es -> e ∈ es -> S (length (list.unlink e es)) = length es.
Proof.
  unfold list.unlink. induction 1 as [|x es Hx Hnd IH]; intros He.
  - by apply elem_of_nil in He.
  - destruct (decide (x = e)) as [->|Hne].
    + rewrite filter_cons_False by (intros ?; congruence).
      fold (list.unlink e es). by rewrite unlink_absent.
    + rewrite filter_cons_True by done. cbn. f_equal. apply IH.
      apply elem_of_cons in He as [?|?]; [congruence|done].
Qed.

Lemma unlink_last b es :
  NoDup es -> last es = Some b -> es = list.unlink b es ++ [b].
Proof.
  intros Hnd Hl. apply last_Some in Hl as [es' ->].
  apply NoDup_app in Hnd as (_ & Hdisj & _).
  unfold list.unlink. rewrite filter_app, filter_cons_False by (intros ?; congruence).
  rewrite filter_nil, app_nil_r. fold (list.unlink b es').
  rewrite unlink_absent; [done|]. intros Hb. apply (Hdisj b Hb). by left.
Qed.

(** Filtering before and after reading the elements. *)
Lemma omap_filter_agree (f : ptr -> option B)
    (P : ptr -> Prop) `{!forall x, Decision (P x)}
    (Q : B -> Prop) `{!forall y, Decision (Q y)} es :
  (forall x y, x ∈ es -> f x = Some y -> (P x <-> Q y)) ->
  omap f (filter P es) = filter Q (omap f es).
Proof.
  induction es as [|x es IH]; intros Hag; [done|].
  assert (omap f (filter P es) = filter Q (omap f es)) as IH'.
  { apply IH. intros ? ? ?. apply Hag. by right. }
  destruct (decide (P x)) as [HP|HP].
  - rewrite filter_cons_True by done. cbn. rewrite IH'.
    destruct (f x) as [y|] eqn:Hfx; [|done].
    rewrite filter_cons_True; [done|]. eapply Hag; [by left|done|done].
  - rewrite filter_cons_False by done. cbn. rewrite IH'.
    destruct (f x) as [y|] eqn:Hfx; [|done].
    rewrite filter_cons_False; [done|].
    intros HQ. apply HP. eapply Hag; [by left|done|done].
Qed.

Lemma omap_ext_in (f g : ptr -> option B) es :
  (forall x, x ∈ es -> f x = g x) -> omap f es = omap g es.
Proof.
  induction es as [|x es IH]; intros Hfg; [done|].
  cbn. rewrite (Hfg x) by (by left). rewrite IH; [done|].
  intros ? ?. apply Hfg. by right.
Qed.

Lemma filter_keeps_all (P : B -> Prop) `{!forall y, Decision (P y)} (l : list B) :
  (forall y, y ∈ l -> P y) -> filter P l = l.
Proof.
  induction l as [|y l IH]; intros HP; [done|].
  rewrite filter_cons_True by (apply HP; by left).
  f_equal. apply IH. intros ? ?. apply HP. by right.
Qed.

(** Dropping the last of a list without repeated keys. *)
Lemma filter_key_last {K} (f : B -> K) `{EqDecision K} (l : list B) (x : B) :
  NoDup (f <$> (l ++ [x])) ->
  filter (λ y, f y ≠ f x) (l ++ [x]) = l.
Proof.
  intros Hnd. rewrite fmap_app in Hnd. apply NoDup_app in Hnd as (_ & Hdisj & _).
  rewrite filter_app, filter_cons_False, filter_nil, app_nil_r by (intros ?; congruence).
  induction l as [|y l IH]; [done|].
  rewrite filter_cons_True.
  - f_equal. apply IH. intros k Hk. apply Hdisj. by right.
  - intros Heq. apply (Hdisj (f y)); [by left|]. rewrite Heq. by left.
Qed.
End chains.

(** ** Properties of the operations *)

Section theory.
Context {A : Type} `{Node A}.
Implicit Types (c : lruCache A) (n : A) (e : ptr) (k : string).

(** *** The operations, path by path *)

Ltac run_op :=
  unfold Add, Get, Has, Len, Remove, remove, removeWithKey, mbind, M_bind,
    mret, M_ret, dict_Load, dict_Store, dict_Delete, ll_Len, ll_Back,
    ll_PushFront, ll_MoveToFront, ll_Remove, load_Value, store_Value,
    assert_Node, node_GetKey, get_maxElementCount, panic,
    list.MoveToFront, list.PushFront, list.Remove, list.Len, list.Back,
    set_ll, set_dict, UnsafeBytesToStr, skey in *;
  fold bytes_to_string in *; cbn in *.

Lemma Add_nil_eq c : Add None c = (Panic, c).
Proof. reflexivity. Qed.

Lemma Add_hit_eq c n e old :
  dict c !! skey n = Some e ->
  list.Value (ll c) !! e = Some (Some old) ->
  e ∈ list.order (ll c) ->
  Add (Some n) c = (Ret (Some old), overwritten e n c).
Proof.
  intros Hd Hv He. run_op. rewrite Hd. cbn.
  rewrite bool_decide_eq_true_2 by done. cbn.
  rewrite Hv. cbn. by rewrite Hv.
Qed.

Lemma remove_eq c e old :
  list.Value (ll c) !! e = Some (Some old) ->
  remove (Some e) c = (Ret (Some old), unlinked (skey old) e c).
Proof. intros Hv. run_op. by rewrite Hv. Qed.

Lemma Add_miss_eq c n :
  dict c !! skey n = None ->
  Add (Some n) c =
    if (Z.of_nat (S (length (list.order (ll c)))) >? maxElementCount c)%Z
    then remove (last (list.order (ll (pushed n c)))) (pushed n c)
    else (Ret None, pushed n c).
Proof.
  intros Hd. unfold Add, mbind, M_bind at 1 2. cbn.
  unfold skey in Hd. rewrite Hd. cbn.
  unfold list.Len. cbn [list.order length].
  by destruct (_ >? _)%Z.
Qed.

Lemma Get_hit_eq c key e n :
  dict c !! bytes_to_string key = Some e ->
  list.Value (ll c) !! e = Some (Some n) ->
  e ∈ list.order (ll c) ->
  Get key c = (Ret (Some n), fronted e c).
Proof.
  intros Hd Hv He. run_op. rewrite Hd. cbn.
  rewrite bool_decide_eq_true_2 by done. cbn. by rewrite Hv.
Qed.

Lemma Get_miss_eq c key :
  dict c !! bytes_to_string key = None -> Get key c = (Ret None, c).
Proof. intros Hd. run_op. by rewrite Hd. Qed.

Lemma Has_eq c key :
  Has key c = (Ret (bool_decide (is_Some (dict c !! bytes_to_string key))), c).
Proof. reflexivity. Qed.

Lemma Len_eq c : Len c = (Ret (Z.of_nat (length (list.order (ll c)))), c).
Proof. reflexivity. Qed.

Lemma Remove_hit_eq c key e n :
  dict c !! bytes_to_string key = Some e ->
  list.Value (ll c) !! e = Some (Some n) ->
  Remove key c = (Ret (Some n), unlinked (bytes_to_string key) e c).
Proof. intros Hd Hv. run_op. rewrite Hd. cbn. by rewrite Hv. Qed.

Lemma Remove_miss_eq c key :
  dict c !! bytes_to_string key = None -> Remove key c = (Ret None, c).
Proof. intros Hd. run_op. by rewrite Hd. Qed.

(** *** Well-formedness is kept *)

Lemma wf_New C : wf (New C).
Proof.
  split; cbn.
  - constructor.
  - intros e He. by apply elem_of_nil in He.
  - intros k e He. by rewrite lookup_empty in He.
  - intros e [v He]. by rewrite lookup_empty in He.
Qed.

Lemma wf_node_at c e :
  wf c -> e ∈ list.order (ll c) ->
  exists n, node_at c e = Some n ∧ list.Value (ll c) !! e = Some (Some n) ∧
            dict c !! skey n = Some e.
Proof.
  intros Hwf He. destruct (wf_order c Hwf e He) as (n & Hv & Hd).
  exists n. unfold node_at. by rewrite Hv.
Qed.

Lemma node_at_Some c e n :
  wf c -> e ∈ list.order (ll c) -> node_at c e = Some n ->
  list.Value (ll c) !! e = Some (Some n) ∧ dict c !! skey n = Some e.
Proof.
  intros Hwf He Hn. destruct (wf_node_at c e Hwf He) as (n' & Hn' & Hv & Hd).
  by simplify_eq.
Qed.

(** In a well-formed cache the key decides the element. *)
Lemma wf_key_ptr c k e x y :
  wf c -> dict c !! k = Some e ->
  x ∈ list.order (ll c) -> node_at c x = Some y ->
  x = e <-> skey y = k.
Proof.
  intros Hwf Hd Hx Hy.
  destruct (node_at_Some c x y Hwf Hx Hy) as [Hv Hdy].
  destruct (wf_dict c Hwf k e Hd) as (He & n & Hvn & Hk).
  split.
  - intros ->. by simplify_eq.
  - intros <-. by simplify_eq.
Qed.

Lemma wf_fresh_notin c : wf c -> list.fresh (ll c) ∉ list.order (ll c).
Proof.
  intros Hwf He. destruct (wf_order c Hwf _ He) as (n & Hv & _).
  assert (list.fresh (ll c) < list.fresh (ll c)); [|lia].
  apply (wf_fresh c Hwf). by rewrite Hv.
Qed.

Lemma wf_pushed c n :
  wf c -> dict c !! skey n = None -> wf (pushed n c).
Proof.
  intros Hwf Hd. pose proof (wf_fresh_notin c Hwf) as Hfr.
  split; cbn.
  - by constructor; [|apply Hwf].
  - intros e He. apply elem_of_cons in He as [->|He].
    + exists n. by rewrite !lookup_insert_eq.
    + destruct (wf_order c Hwf e He) as (n' & Hv & Hd').
      exists n'. rewrite !lookup_insert_ne; [done| |]; congruence.
  - intros k e Hk. destruct (decide (skey n = k)) as [<-|Hne].
    + rewrite lookup_insert_eq in Hk. simplify_eq.
      split; [by left|]. exists n. by rewrite lookup_insert_eq.
    + rewrite lookup_insert_ne in Hk by done.
      destruct (wf_dict c Hwf k e Hk) as (He & n' & Hv & Hn').
      split; [by right|]. exists n'. rewrite lookup_insert_ne; [done|].
      congruence.
  - intros e He. destruct (decide (list.fresh (ll c) = e)) as [<-|Hne]; [lia|].
    rewrite lookup_insert_ne in He by done.
    pose proof (wf_fresh c Hwf e He). lia.
Qed.

Lemma wf_unlinked c k e :
  wf c -> dict c !! k = Some e -> wf (unlinked k e c).
Proof.
  intros Hwf Hd. split; cbn.
  - apply unlink_NoDup, Hwf.
  - intros x Hx. apply unlink_elem_of in Hx as [Hne Hx].
    destruct (wf_node_at c x Hwf Hx) as (y & Hy & Hv & Hdy).
    exists y. split; [done|]. rewrite lookup_delete_ne; [done|].
    intros Hk. apply Hne. by eapply wf_key_ptr.
  - intros k' x Hx. apply lookup_delete_Some in Hx as [Hne Hx].
    destruct (wf_dict c Hwf k' x Hx) as (Hin & y & Hv & Hy).
    split; [|by exists y]. apply unlink_elem_of. split; [|done].
    intros ->. apply Hne. symmetry. rewrite <- Hy.
    eapply wf_key_ptr; [done..| |done]. unfold node_at. by rewrite Hv.
  - apply Hwf.
Qed.

Lemma wf_overwritten c e n :
  wf c -> dict c !! skey n = Some e -> wf (overwritten e n c).
Proof.
  intros Hwf Hd. destruct (wf_dict c Hwf _ _ Hd) as (He & n0 & Hv0 & Hk0).
  split; cbn.
  - constructor; [|apply unlink_NoDup, Hwf].
    rewrite unlink_elem_of. by intros [? _].
  - intros x Hx. destruct (decide (x = e)) as [->|Hne].
    + exists n. by rewrite lookup_insert_eq.
    + rewrite lookup_insert_ne by done. apply (wf_order c Hwf).
      apply elem_of_cons in Hx as [?|Hx]; [done|].
      by apply unlink_elem_of in Hx as [_ ?].
  - intros k x Hx. destruct (wf_dict c Hwf k x Hx) as (Hin & y & Hv & Hy).
    destruct (decide (x = e)) as [->|Hne].
    + split; [by left|]. exists n. rewrite lookup_insert_eq.
      split; [done|]. simplify_eq. done.
    + split; [right; by apply unlink_elem_of|].
      exists y. by rewrite lookup_insert_ne.
  - intros x Hx. apply (wf_fresh c Hwf).
    destruct (decide (e = x)) as [<-|Hne]; [by rewrite Hv0|].
    by rewrite lookup_insert_ne in Hx.
Qed.

Lemma wf_fronted c e :
  wf c -> e ∈ list.order (ll c) -> wf (fronted e c).
Proof.
  intros Hwf He. split; cbn.
  - constructor; [|apply unlink_NoDup, Hwf].
    rewrite unlink_elem_of. by intros [? _].
  - intros x Hx. apply (wf_order c Hwf).
    apply elem_of_cons in Hx as [->|Hx]; [done|].
    by apply unlink_elem_of in Hx as [_ ?].
  - intros k x Hx. destruct (wf_dict c Hwf k x Hx) as (Hin & Hy).
    split; [|done]. destruct (decide (x = e)) as [->|Hne]; [by left|].
    right. by apply unlink_elem_of.
  - apply Hwf.
Qed.

(** *** The nodes of the states the operations build *)

Lemma entries_elem_of c n :
  n ∈ entries c <-> exists e, e ∈ list.order (ll c) ∧ node_at c e = Some n.
Proof. unfold entries. by rewrite list_elem_of_omap. Qed.

Lemma entries_length c :
  wf c -> length (entries c) = length (list.order (ll c)).
Proof.
  intros Hwf. unfold entries.
  assert (forall e, e ∈ list.order (ll c) -> is_Some (node_at c e)) as Hs.
  { intros e He. destruct (wf_node_at c e Hwf He) as (n & -> & _). by eexists. }
  induction (list.order (ll c)) as [|e es IH]; [done|].
  cbn. destruct (Hs e) as [n ->]; [by left|]. cbn. f_equal.
  apply IH. intros ? ?. apply Hs. by right.
Qed.

Lemma entries_pushed c n : wf c -> entries (pushed n c) = n :: entries c.
Proof.
  intros Hwf. unfold entries, pushed. cbn.
  unfold node_at at 1. cbn. rewrite lookup_insert_eq. cbn. f_equal.
  apply omap_ext_in. intros x Hx. unfold node_at. cbn.
  rewrite lookup_insert_ne; [done|].
  intros <-. by apply (wf_fresh_notin c).
Qed.

Lemma entries_unlink c k e :
  wf c -> dict c !! k = Some e ->
  omap (node_at c) (list.unlink e (list.order (ll c)))
  = filter (λ y, skey y ≠ k) (entries c).
Proof.
  intros Hwf Hd. unfold entries, list.unlink.
  apply omap_filter_agree. intros x y Hx Hy.
  by rewrite (wf_key_ptr c k e x y).
Qed.

Lemma entries_unlinked c k e :
  wf c -> dict c !! k = Some e ->
  entries (unlinked k e c) = filter (λ y, skey y ≠ k) (entries c).
Proof. intros Hwf Hd. by rewrite <- (entries_unlink c k e). Qed.

Lemma entries_fronted c k e n :
  wf c -> dict c !! k = Some e -> list.Value (ll c) !! e = Some (Some n) ->
  entries (fronted e c) = n :: filter (λ y, skey y ≠ k) (entries c).
Proof.
  intros Hwf Hd Hv. rewrite <- (entries_unlink c k e) by done.
  unfold entries, fronted. cbn. unfold node_at at 1. cbn. by rewrite Hv.
Qed.

Lemma entries_overwritten c e n :
  wf c -> dict c !! skey n = Some e ->
  entries (overwritten e n c)
  = n :: filter (λ y, skey y ≠ skey n) (entries c).
Proof.
  intros Hwf Hd. rewrite <- (entries_unlink c (skey n) e) by done.
  unfold entries, overwritten. cbn.
  unfold node_at at 1. cbn. rewrite lookup_insert_eq. cbn. f_equal.
  apply omap_ext_in. intros x Hx. unfold node_at. cbn.
  rewrite lookup_insert_ne; [done|].
  apply unlink_elem_of in Hx as [? _]. congruence.
Qed.

(** *** What a well-formed cache shows *)

Lemma wf_keys_NoDup c : wf c -> NoDup (keys c).
Proof.
  intros Hwf. unfold keys, entries.
  assert (forall x y a b, x ∈ list.order (ll c) -> y ∈ list.order (ll c) ->
            node_at c x = Some a -> node_at c y = Some b ->
            skey a = skey b -> x = y) as Hinj.
  { intros x y a b Hx Hy Ha Hb Hab.
    destruct (node_at_Some c x a Hwf Hx Ha) as [_ Hdx].
    destruct (node_at_Some c y b Hwf Hy Hb) as [_ Hdy]. congruence. }
  pose proof (wf_NoDup c Hwf) as Hnd.
  induction Hnd as [|x es Hx Hnd IH]; [constructor|].
  cbn. destruct (node_at c x) as [a|] eqn:Ha; cbn.
  - constructor.
    + intros Hin. apply list_elem_of_fmap in Hin as (b & Hab & Hb).
      apply list_elem_of_omap in Hb as (y & Hy & Hb).
      apply Hx. rewrite (Hinj x y a b); [done|by left|by right|done..].
    + apply IH. intros ? ? ? ? ? ?. apply Hinj; by right.
  - apply IH. intros ? ? ? ? ? ?. apply Hinj; by right.
Qed.

Lemma wf_dict_keys c k : wf c -> is_Some (dict c !! k) <-> k ∈ keys c.
Proof.
  intros Hwf. unfold keys. rewrite list_elem_of_fmap. split.
  - intros [e He]. destruct (wf_dict c Hwf k e He) as (Hin & n & Hv & Hk).
    exists n. split; [done|]. apply entries_elem_of. exists e.
    split; [done|]. unfold node_at. by rewrite Hv.
  - intros (n & -> & Hn). apply entries_elem_of in Hn as (e & He & Hn).
    destruct (node_at_Some c e n Hwf He Hn) as [_ Hd]. by eexists.
Qed.

Lemma wf_dom c : wf c -> dom (dict c) = list_to_set (keys c).
Proof.
  intros Hwf. apply set_eq. intros k.
  by rewrite elem_of_dom, elem_of_list_to_set, wf_dict_keys.
Qed.

Lemma wf_size c : wf c -> size (dict c) = length (list.order (ll c)).
Proof.
  intros Hwf. rewrite <- size_dom, (wf_dom c Hwf).
  rewrite size_list_to_set by by apply wf_keys_NoDup.
  unfold keys. by rewrite length_fmap, entries_length.
Qed.

(** *** The operations on a well-formed cache *)

Lemma Add_hit_spec c n e :
  wf c -> dict c !! skey n = Some e ->
  exists old, list.Value (ll c) !! e = Some (Some old) ∧ skey old = skey n ∧
    old ∈ entries c ∧
    Add (Some n) c = (Ret (Some old), overwritten e n c).
Proof.
  intros Hwf Hd. destruct (wf_dict c Hwf _ _ Hd) as (He & old & Hv & Hk).
  exists old. split_and!; [done..| |by apply Add_hit_eq].
  apply entries_elem_of. exists e. split; [done|].
  unfold node_at. by rewrite Hv.
Qed.

Lemma Add_room_spec c n :
  dict c !! skey n = None ->
  (Z.of_nat (S (length (list.order (ll c)))) <= maxElementCount c)%Z ->
  Add (Some n) c = (Ret None, pushed n c).
Proof.
  intros Hd Hle. rewrite Add_miss_eq by done.
  destruct (Z.gtb_spec (Z.of_nat (S (length (list.order (ll c)))))
              (maxElementCount c)); [lia|done].
Qed.

Lemma Add_evict_spec c n :
  wf c -> dict c !! skey n = None ->
  (maxElementCount c < Z.of_nat (S (length (list.order (ll c)))))%Z ->
  exists b old,
    last (list.fresh (ll c) :: list.order (ll c)) = Some b ∧
    list.Value (ll (pushed n c)) !! b = Some (Some old) ∧
    dict (pushed n c) !! skey old = Some b ∧
    Add (Some n) c = (Ret (Some old), unlinked (skey old) b (pushed n c)) ∧
    n :: entries c = entries (unlinked (skey old) b (pushed n c)) ++ [old].
Proof.
  intros Hwf Hd Hlt. pose proof (wf_pushed c n Hwf Hd) as Hwf1.
  destruct (last (list.order (ll (pushed n c)))) as [b|] eqn:Hb;
    [|by apply last_None in Hb].
  assert (b ∈ list.order (ll (pushed n c))) as Hin.
  { apply last_Some in Hb as [es ->]. set_solver. }
  destruct (wf_order _ Hwf1 b Hin) as (old & Hv & Hdo).
  exists b, old. split_and!; [done..| |].
  - rewrite Add_miss_eq by done.
    destruct (Z.gtb_spec (Z.of_nat (S (length (list.order (ll c)))))
                (maxElementCount c)); [|lia].
    rewrite Hb. by apply remove_eq.
  - rewrite <- (entries_pushed c n Hwf). unfold entries at 1.
    rewrite (unlink_last b _ (wf_NoDup _ Hwf1) Hb) at 1.
    rewrite omap_app. f_equal. cbn.
    unfold node_at. by rewrite Hv.
Qed.

Lemma Get_hit_spec c key e :
  wf c -> dict c !! bytes_to_string key = Some e ->
  exists n, list.Value (ll c) !! e = Some (Some n) ∧
    skey n = bytes_to_string key ∧ n ∈ entries c ∧
    Get key c = (Ret (Some n), fronted e c).
Proof.
  intros Hwf Hd. destruct (wf_dict c Hwf _ _ Hd) as (He & n & Hv & Hk).
  exists n. split_and!; [done..| |by apply Get_hit_eq].
  apply entries_elem_of. exists e. split; [done|].
  unfold node_at. by rewrite Hv.
Qed.

Lemma Remove_hit_spec c key e :
  wf c -> dict c !! bytes_to_string key = Some e ->
  exists n, list.Value (ll c) !! e = Some (Some n) ∧
    skey n = bytes_to_string key ∧ n ∈ entries c ∧
    Remove key c = (Ret (Some n), unlinked (bytes_to_string key) e c).
Proof.
  intros Hwf Hd. destruct (wf_dict c Hwf _ _ Hd) as (He & n & Hv & Hk).
  exists n. split_and!; [done..| |by apply Remove_hit_eq].
  apply entries_elem_of. exists e. split; [done|].
  unfold node_at. by rewrite Hv.
Qed.


(** *** One operation on a well-formed cache *)

Lemma entries_count c : wf c -> length (entries c) = count c.
Proof. apply entries_length. Qed.

Lemma keys_overwritten (l l' : list A) n :
  l' = n :: filter (λ y, skey y ≠ skey n) l ->
  skey n ∈ (skey <$> l) ->
  forall k, k ∈ (skey <$> l') <-> k ∈ (skey <$> l).
Proof.
  intros -> Hn k. rewrite fmap_cons, elem_of_cons, !list_elem_of_fmap.
  split.
  - intros [->|(y & -> & Hy)]; [by apply list_elem_of_fmap in Hn|].
    apply list_elem_of_filter in Hy as [_ Hy]. by exists y.
  - intros (y & -> & Hy). destruct (decide (skey y = skey n)) as [?|Hne].
    + by left.
    + right. exists y. split; [done|]. by apply list_elem_of_filter.
Qed.

Lemma not_in_keys c k : wf c -> dict c !! k = None -> k ∉ keys c.
Proof.
  intros Hwf Hd Hk. apply (wf_dict_keys c k Hwf) in Hk as [e He]. congruence.
Qed.

(** What [Add] of a node does, in the three paths it has. *)
Lemma Add_cases c n :
  wf c ->
  exists r c', Add (Some n) c = (Ret r, c') ∧ wf c' ∧
    maxElementCount c' = maxElementCount c ∧
    ((skey n ∈ keys c ∧ count c' = count c ∧
      (exists old, r = Some old ∧ skey old = skey n ∧ old ∈ entries c) ∧
      entries c' = n :: filter (λ y, skey y ≠ skey n) (entries c))
     ∨ ((skey n ∉ keys c) ∧ (Z.of_nat (S (count c)) <= maxElementCount c)%Z ∧
        r = None ∧ entries c' = n :: entries c ∧ count c' = S (count c))
     ∨ ((skey n ∉ keys c) ∧ (maxElementCount c < Z.of_nat (S (count c)))%Z ∧
        count c' = count c ∧
        exists old, r = Some old ∧ n :: entries c = entries c' ++ [old])).
Proof.
  intros Hwf. destruct (dict c !! skey n) as [e|] eqn:Hd.
  - destruct (Add_hit_spec c n e Hwf Hd) as (old & Hv & Hk & Hin & ->).
    pose proof (wf_overwritten c e n Hwf Hd) as Hwf'.
    do 2 eexists. split_and!; [done..|]. left. split_and!.
    + apply (wf_dict_keys c _ Hwf). by eexists.
    + unfold count. cbn. apply unlink_length; [apply Hwf|].
      by destruct (wf_dict c Hwf _ _ Hd).
    + by exists old.
    + by apply entries_overwritten.
  - pose proof (not_in_keys c _ Hwf Hd) as Hk.
    destruct (Z.le_gt_cases (Z.of_nat (S (count c))) (maxElementCount c))
      as [Hle|Hgt].
    + rewrite (Add_room_spec c n Hd Hle).
      do 2 eexists. split_and!; [done|by apply wf_pushed|done|].
      right; left. split_and!; [done..|by apply entries_pushed|done].
    + destruct (Add_evict_spec c n Hwf Hd Hgt)
        as (b & old & Hb & Hv & Hdo & -> & Hent).
      pose proof (wf_pushed c n Hwf Hd) as Hwf1.
      do 2 eexists. split_and!; [done|by apply wf_unlinked|done|].
      right; right. split_and!; [done..| |by exists old].
      assert (S (count (unlinked (skey old) b (pushed n c))) = S (count c))
        as Hl; [|lia].
      apply (unlink_length b (list.fresh (ll c) :: list.order (ll c))).
      * apply (wf_NoDup _ Hwf1).
      * apply last_Some in Hb as [es ->]. set_solver.
Qed.

Lemma Get_cases c key :
  wf c ->
  exists r c', Get key c = (Ret r, c') ∧ wf c' ∧
    maxElementCount c' = maxElementCount c ∧ count c' = count c ∧
    dict c' = dict c ∧
    match r with
    | Some n => skey n = bytes_to_string key ∧ n ∈ entries c ∧
        entries c' = n :: filter (λ y, skey y ≠ bytes_to_string key) (entries c)
    | None => dict c !! bytes_to_string key = None ∧ c' = c
    end.
Proof.
  intros Hwf. destruct (dict c !! bytes_to_string key) as [e|] eqn:Hd.
  - destruct (Get_hit_spec c key e Hwf Hd) as (n & Hv & Hk & Hin & ->).
    destruct (wf_dict c Hwf _ _ Hd) as [He _].
    do 2 eexists. split_and!; [done|by apply wf_fronted|done| |done|].
    + unfold count. cbn. apply unlink_length; [apply Hwf|done].
    + split_and!; [done..|]. by apply entries_fronted.
  - rewrite (Get_miss_eq c key Hd). by do 2 eexists.
Qed.

Lemma Remove_cases c key :
  wf c ->
  exists r c', Remove key c = (Ret r, c') ∧ wf c' ∧
    maxElementCount c' = maxElementCount c ∧ count c' <= count c ∧
    dict c' = delete (bytes_to_string key) (dict c) ∧
    entries c' = filter (λ y, skey y ≠ bytes_to_string key) (entries c) ∧
    match r with
    | Some n => skey n = bytes_to_string key ∧ n ∈ entries c
    | None => dict c !! bytes_to_string key = None ∧ c' = c
    end.
Proof.
  intros Hwf. destruct (dict c !! bytes_to_string key) as [e|] eqn:Hd.
  - destruct (Remove_hit_spec c key e Hwf Hd) as (n & Hv & Hk & Hin & ->).
    destruct (wf_dict c Hwf _ _ Hd) as [He _].
    do 2 eexists. split_and!; [done|by apply wf_unlinked|done| |done| |done].
    + unfold count. cbn. pose proof (unlink_length e _ (wf_NoDup c Hwf) He). lia.
    + by apply entries_unlinked.
  - rewrite (Remove_miss_eq c key Hd).
    do 2 eexists. split_and!; [done..| | |done].
    + by rewrite delete_id.
    + symmetry. apply filter_keeps_all. intros y Hy Hk.
      apply (not_in_keys c _ Hwf Hd). rewrite <- Hk.
      by apply list_elem_of_fmap_2.
Qed.

(** *** Sequences of operations keep the cache well-formed and bounded *)

Lemma bounded_New C : bounded C (New C).
Proof. split_and!; [apply wf_New|done|]. unfold count. cbn. lia. Qed.

Lemma Add_bounded C c n :
  bounded C c ->
  exists r c', Add (Some n) c = (Ret r, c') ∧ bounded C c'.
Proof.
  intros (Hwf & HC & Hle).
  destruct (Add_cases c n Hwf) as (r & c' & Heq & Hwf' & Hmax & Hcase).
  exists r, c'. split; [done|]. split_and!; [done|congruence|].
  destruct Hcase as [(_ & Hc & _)|[(_ & Hroom & _ & _ & Hc)|(_ & _ & Hc & _)]];
    lia.
Qed.

Lemma exec_bounded C c (o : op A) :
  bounded C c ->
  bounded C (state_of (exec o c)) ∧
  result_of (exec o c) = if nonnil o then Ret () else Panic.
Proof.
  intros Hb. pose proof Hb as (Hwf & HC & Hle).
  destruct o as [[n|]|key|key|key|]; unfold exec, mbind, M_bind; cbn beta.
  - destruct (Add_bounded C c n Hb) as (r & c' & -> & Hb'). by cbn.
  - done.
  - destruct (Get_cases c key Hwf) as (r & c' & -> & Hwf' & Hmax & Hc & _).
    cbn. split; [|done]. split_and!; [done|congruence|lia].
  - done.
  - destruct (Remove_cases c key Hwf) as (r & c' & -> & Hwf' & Hmax & Hc & _).
    cbn. split; [|done]. split_and!; [done|congruence|lia].
  - done.
Qed.

Lemma run_bounded C (ops : list (op A)) c :
  bounded C c ->
  bounded C (state_of (run ops c)) ∧
  result_of (run ops c) = if forallb nonnil ops then Ret () else Panic.
Proof.
  revert c. induction ops as [|o ops IH]; intros c Hb; [done|].
  destruct (exec_bounded C c o Hb) as [Hb' Hr].
  cbn [run forallb]. unfold mbind, M_bind.
  destruct (exec o c) as [[[]|] c'] eqn:Hex; cbn in Hb', Hr.
  - destruct (nonnil o); [|done]. cbn. by apply IH.
  - destruct (nonnil o); [done|]. by cbn.
Qed.

(** *** Adding nodes one after the other *)

Lemma tracked_New C : tracked C ∅ (New C).
Proof. split_and!; [apply bounded_New|done|by right]. Qed.

Lemma tracked_count C seen c :
  tracked C seen c ->
  Z.of_nat (count c) = Z.min (Z.of_nat (size seen)) (Z.max C 0).
Proof.
  intros ((Hwf & HC & Hle) & Hsub & Hfull).
  assert (size (list_to_set (keys c) : gset string) = count c) as Hsz.
  { rewrite size_list_to_set by by apply wf_keys_NoDup.
    unfold keys. by rewrite length_fmap, entries_count. }
  destruct Hfull as [Hfull|Heq].
  - apply subseteq_size in Hsub. lia.
  - rewrite <- Heq, Hsz. lia.
Qed.

Lemma tracked_intro C seen c :
  wf c -> maxElementCount c = C -> (Z.of_nat (count c) <= Z.max C 0)%Z ->
  list_to_set (keys c) ⊆ seen ->
  (Z.of_nat (count c) = Z.max C 0 ∨ list_to_set (keys c) = seen) ->
  tracked C seen c.
Proof. intros. unfold tracked, bounded. tauto. Qed.

Lemma Add_tracked C seen c n :
  tracked C seen c ->
  exists r c', Add (Some n) c = (Ret r, c') ∧ tracked C ({[skey n]} ∪ seen) c'.
Proof.
  intros ((Hwf & HC & Hle) & Hsub & Hfull).
  destruct (Add_cases c n Hwf) as (r & c' & Heq & Hwf' & Hmax & Hcase).
  exists r, c'. split; [done|].
  destruct Hcase as [(Hin & Hc & _ & Hent)
                    |[(Hnin & Hroom & _ & Hent & Hc)
                     |(Hnin & Hover & Hc & old & _ & Hent)]].
  - assert (list_to_set (keys c') = (list_to_set (keys c) : gset string)) as Hk.
    { apply set_eq. intros k. rewrite !elem_of_list_to_set.
      by apply (keys_overwritten (entries c) (entries c') n). }
    assert (skey n ∈ seen) as Hs.
    { apply Hsub. by apply elem_of_list_to_set. }
    apply tracked_intro; [done|congruence|lia| |].
    + rewrite Hk. set_solver.
    + destruct Hfull as [?|Hfull]; [left; lia|right].
      rewrite Hk, Hfull. set_solver.
  - assert (list_to_set (keys c')
            = ({[skey n]} ∪ list_to_set (keys c) : gset string)) as Hk.
    { unfold keys. by rewrite Hent. }
    apply tracked_intro; [done|congruence|lia| |].
    + rewrite Hk. set_solver.
    + destruct Hfull as [?|Hfull]; [lia|right]. by rewrite Hk, Hfull.
  - assert (list_to_set (keys c')
            ⊆ ({[skey n]} ∪ list_to_set (keys c) : gset string)) as Hk.
    { intros k Hk. apply elem_of_list_to_set in Hk.
      assert (k ∈ skey <$> (n :: entries c)) as Hk'.
      { rewrite Hent, fmap_app. apply elem_of_app. by left. }
      rewrite fmap_cons in Hk'. set_solver. }
    apply tracked_intro; [done|congruence|lia| |].
    + set_solver.
    + left. lia.
Qed.

Lemma AddAll_tracked C (ns : list A) seen c :
  tracked C seen c ->
  exists rs c', AddAll ns c = (Ret rs, c') ∧ length rs = length ns ∧
    tracked C (list_to_set (skey <$> ns) ∪ seen) c'.
Proof.
  revert seen c. induction ns as [|n ns IH]; intros seen c Ht.
  - exists [], c. split_and!; [done..|].
    by replace (list_to_set (skey <$> []) ∪ seen) with seen by set_solver.
  - destruct (Add_tracked C seen c n Ht) as (r & c1 & Hadd & Ht1).
    destruct (IH _ c1 Ht1) as (rs & c2 & Hrs & Hlen & Ht2).
    exists (r :: rs), c2. split_and!.
    + cbn [AddAll]. unfold mbind, M_bind. rewrite Hadd, Hrs. done.
    + cbn. by rewrite Hlen.
    + replace (list_to_set (skey <$> n :: ns) ∪ seen)
        with (list_to_set (skey <$> ns) ∪ ({[skey n]} ∪ seen)); [done|].
      rewrite fmap_cons. set_solver.
Qed.

(** ** The capacity bound *)

(** C1, as the code has it: from a fresh cache of any capacity [C],
    adding the nodes [ns] one after the other returns every time, and
    then [Len()] is at most [max C 0] and is the smaller of [max C 0]
    and the number of distinct keys among [ns]; and after any sequence
    of [Add], [Get], [Has], [Remove] and [Len] calls, [Len()] is at most
    [max C 0].  For a capacity that is not negative this is the bound
    [C] itself. *)
Theorem capacity_invariant (C : Z) (ns : list A) (ops : list (op A)) :
  (exists rs c len,
     AddAll ns (New C) = (Ret rs, c) ∧ Len c = (Ret len, c) ∧
     (len <= Z.max C 0)%Z ∧
     len = Z.min (Z.of_nat (size (list_to_set (skey <$> ns) : gset string)))
                 (Z.max C 0)) ∧
  (exists len,
     result_of (Len (state_of (run ops (New C)))) = Ret len ∧
     (len <= Z.max C 0)%Z).
Proof.
  split.
  - destruct (AddAll_tracked C ns ∅ (New C) (tracked_New C))
      as (rs & c & Hrs & _ & Ht).
    pose proof (tracked_count C _ c Ht) as Hc.
    replace (list_to_set (skey <$> ns) ∪ ∅)
      with (list_to_set (skey <$> ns) : gset string) in Hc by set_solver.
    exists rs, c, (Z.of_nat (count c)). split_and!; [done|done| |done].
    by destruct Ht as ((_ & _ & ?) & _).
  - destruct (run_bounded C ops (New C) (bounded_New C)) as [(_ & _ & Hle) _].
    by exists (Z.of_nat (count (state_of (run ops (New C))))).
Qed.

(** ** The index and the list agree *)

(** C2: after any sequence of calls on a cache made by [New] (the run
    panics exactly when some [Add] is passed nil, and stops there), the
    keys of the index are the keys of the nodes in the list, no key is
    the key of two nodes of the list, the index has as many entries as
    the list has elements, every element holds a node, and the index
    sends a key to an element exactly when that element is in the list
    and holds a node with that key. *)
Theorem index_matches_list (C : Z) (ops : list (op A)) :
  let c := state_of (run ops (New C)) in
  result_of (run ops (New C)) = (if forallb nonnil ops then Ret () else Panic) ∧
  dom (dict c) = list_to_set (keys c) ∧
  NoDup (keys c) ∧
  size (dict c) = length (list.order (ll c)) ∧
  length (entries c) = length (list.order (ll c)) ∧
  (forall k e, dict c !! k = Some e <->
     e ∈ list.order (ll c) ∧ exists n, node_at c e = Some n ∧ skey n = k).
Proof.
  intros c.
  destruct (run_bounded C ops (New C) (bounded_New C)) as [(Hwf & _) Hr].
  fold c in Hwf. split_and!.
  - done.
  - by apply wf_dom.
  - by apply wf_keys_NoDup.
  - by apply wf_size.
  - by apply entries_length.
  - intros k e. split.
    + intros Hd. destruct (wf_dict c Hwf k e Hd) as (He & n & Hv & Hk).
      split; [done|]. exists n. unfold node_at. by rewrite Hv.
    + intros (He & n & Hn & <-). by apply node_at_Some.
Qed.

(** ** Adding nil *)

(** C8: [Add] of a nil node panics, and the cache is as it was. *)
Theorem Add_nil_panics (c : lruCache A) : Add None c = (Panic, c).
Proof. reflexivity. Qed.

(** ** A capacity of zero or less *)

Lemma bounded_empty C c :
  (C <= 0)%Z -> bounded C c -> list.order (ll c) = [] ∧ dict c = ∅.
Proof.
  intros HC (Hwf & Hmax & Hle). unfold count in Hle.
  assert (list.order (ll c) = []) as Ho.
  { destruct (list.order (ll c)); [done|]. cbn in Hle. lia. }
  split; [done|]. apply map_empty. intros k.
  destruct (dict c !! k) as [e|] eqn:Hd; [|done].
  destruct (wf_dict c Hwf k e Hd) as [He _]. rewrite Ho in He.
  by apply elem_of_nil in He.
Qed.

(** C9: in a cache made with a capacity of zero or less, after any
    sequence of calls the list and the index are empty, and [Add] of a
    node returns that very node and leaves the list and the index
    empty. *)
Theorem zero_capacity_evicts_at_once (C : Z) (ops : list (op A)) (n : A) :
  (C <= 0)%Z ->
  let c := state_of (run ops (New C)) in
  list.order (ll c) = [] ∧ dict c = ∅ ∧
  exists c', Add (Some n) c = (Ret (Some n), c') ∧
    list.order (ll c') = [] ∧ dict c' = ∅ ∧
    list.Value (ll c') !! list.fresh (ll c) = Some (Some n).
Proof.
  intros HC c.
  destruct (run_bounded C ops (New C) (bounded_New C)) as [Hb _]. fold c in Hb.
  destruct (bounded_empty C c HC Hb) as [Ho Hd].
  split_and!; [done..|]. pose proof Hb as (Hwf & Hmax & Hle).
  destruct (Add_bounded C c n Hb) as (r & c' & Hadd & Hb').
  destruct (bounded_empty C c' HC Hb') as [Ho' Hd'].
  assert (dict c !! skey n = None) as Hmiss by by rewrite Hd.
  assert (maxElementCount c < Z.of_nat (S (length (list.order (ll c)))))%Z
    as Hover by (rewrite Ho; cbn; lia).
  destruct (Add_evict_spec c n Hwf Hmiss Hover)
    as (b & old & Hb1 & Hv & _ & Hadd' & _).
  rewrite Ho in Hb1. cbn in Hb1. simplify_eq.
  cbn in Hv. rewrite lookup_insert_eq in Hv. simplify_eq.
  exists c'. rewrite Hadd' in Hadd. simplify_eq.
  split_and!; [done..|]. cbn. by rewrite lookup_insert_eq.
Qed.

(** ** Adding a node *)

(** C3: when the key of [n] is not in the index of a well-formed cache,
    [Add] allocates a new element holding [n], links it at the front
    and registers it in the index under the key of [n].  If the list
    then has more than [maxElementCount] elements, the element at the
    back is unlinked, the key of its node is deleted from the index,
    and its node is what [Add] returns; the nodes left are those of the
    list with [n] in front, without the last one.  Otherwise [Add]
    returns nil. *)
Theorem Add_new_key (c : lruCache A) (n : A) :
  wf c -> dict c !! skey n = None ->
  let e := list.fresh (ll c) in
  let d1 := <[skey n := e]> (dict c) in
  let v1 := <[e := Some n]> (list.Value (ll c)) in
  (e ∉ list.order (ll c)) ∧
  exists r c', Add (Some n) c = (Ret r, c') ∧ wf c' ∧
    maxElementCount c' = maxElementCount c ∧
    list.Value (ll c') = v1 ∧
    if (Z.of_nat (length (e :: list.order (ll c))) >? maxElementCount c)%Z
    then exists b old,
      last (e :: list.order (ll c)) = Some b ∧ v1 !! b = Some (Some old) ∧
      d1 !! skey old = Some b ∧
      r = Some old ∧
      list.order (ll c') = list.unlink b (e :: list.order (ll c)) ∧
      e :: list.order (ll c) = list.order (ll c') ++ [b] ∧
      dict c' = delete (skey old) d1 ∧
      n :: entries c = entries c' ++ [old]
    else
      r = None ∧ list.order (ll c') = e :: list.order (ll c) ∧
      dict c' = d1 ∧ entries c' = n :: entries c.
Proof.
  intros Hwf Hd e d1 v1. split; [by apply wf_fresh_notin|].
  pose proof (wf_pushed c n Hwf Hd) as Hwf1.
  destruct (Z.gtb_spec (Z.of_nat (length (e :: list.order (ll c))))
              (maxElementCount c)) as [Hgt|Hle].
  - destruct (Add_evict_spec c n Hwf Hd) as (b & old & Hb & Hv & Hdo & -> & Hent);
      [cbn in Hgt; lia|].
    do 2 eexists. split_and!; [done|by apply wf_unlinked|done|done|].
    exists b, old. split_and!; try done.
    cbn. apply (unlink_last b (e :: list.order (ll c))); [|done].
    apply (wf_NoDup _ Hwf1).
  - rewrite (Add_room_spec c n Hd) by (cbn in Hle; lia).
    do 2 eexists. split_and!; try done.
    by apply entries_pushed.
Qed.

(** C4: when the index of a well-formed cache sends the key of [n] to
    the element [e], [Add] returns the node [e] held, and leaves a cache
    where [e] is at the front of the list and holds [n], the other
    elements keep their order and their nodes, no element was allocated
    or unlinked, the index is the same and [Len()] is the same. *)
Theorem Add_existing_key (c : lruCache A) (n : A) (e : ptr) :
  wf c -> dict c !! skey n = Some e ->
  exists old c',
    node_at c e = Some old ∧ skey old = skey n ∧
    Add (Some n) c = (Ret (Some old), c') ∧ wf c' ∧
    list.order (ll c') = e :: list.unlink e (list.order (ll c)) ∧
    list.order (ll c') ≡ₚ list.order (ll c) ∧
    list.Value (ll c') = <[e := Some n]> (list.Value (ll c)) ∧
    list.fresh (ll c') = list.fresh (ll c) ∧
    dict c' = dict c ∧
    maxElementCount c' = maxElementCount c ∧
    result_of (Len c') = result_of (Len c) ∧
    entries c' = n :: filter (λ y, skey y ≠ skey n) (entries c).
Proof.
  intros Hwf Hd.
  destruct (Add_hit_spec c n e Hwf Hd) as (old & Hv & Hk & Hin & Hadd).
  destruct (wf_dict c Hwf _ _ Hd) as [He _].
  pose proof (unlink_length e _ (wf_NoDup c Hwf) He) as Hlen.
  exists old, (overwritten e n c). split_and!; try done.
  - unfold node_at. by rewrite Hv.
  - by apply wf_overwritten.
  - cbn. apply NoDup_Permutation.
    + constructor; [|apply unlink_NoDup, Hwf].
      rewrite unlink_elem_of. by intros [? _].
    + apply Hwf.
    + intros x. rewrite elem_of_cons, unlink_elem_of.
      destruct (decide (x = e)) as [->|?]; naive_solver.
  - rewrite !Len_eq. cbn. by rewrite Hlen.
  - by apply entries_overwritten.
Qed.

(** ** Adding, reading and removing a key *)

Lemma entries_key_inj c x y :
  wf c -> x ∈ entries c -> y ∈ entries c -> skey x = skey y -> x = y.
Proof.
  intros Hwf Hx Hy Hk.
  apply entries_elem_of in Hx as (e1 & He1 & Hx).
  apply entries_elem_of in Hy as (e2 & He2 & Hy).
  destruct (node_at_Some c e1 x Hwf He1 Hx) as [_ Hd1].
  destruct (node_at_Some c e2 y Hwf He2 Hy) as [_ Hd2].
  rewrite Hk in Hd1. congruence.
Qed.

Lemma Remove_then_absent c key :
  wf c ->
  exists r c', Remove key c = (Ret r, c') ∧ wf c' ∧
    dict c' !! bytes_to_string key = None ∧
    Get key c' = (Ret None, c') ∧ Has key c' = (Ret false, c').
Proof.
  intros Hwf.
  destruct (Remove_cases c key Hwf) as (r & c' & Hrem & Hwf' & _ & _ & Hd & _).
  assert (dict c' !! bytes_to_string key = None) as Hmiss.
  { rewrite Hd. apply lookup_delete_eq. }
  exists r, c'. split_and!; [done..|by apply Get_miss_eq|].
  rewrite Has_eq, Hmiss. by rewrite bool_decide_eq_false_2 by by intros [].
Qed.

(** C7: in a well-formed cache whose list has fewer than
    [maxElementCount] elements, [Add] of the node [v] returns, and in the
    cache it leaves [Get] of the key of [v] returns [v] and [Has] of that
    key returns true; [Remove] of that key then returns, and in the
    cache it leaves [Get] of the key returns nil, with the cache
    unchanged, and [Has] returns false.  The same holds after [Remove] of
    any key from the cache one starts with. *)
Theorem round_trip (c : lruCache A) (v : A) (key : list byte) :
  wf c -> (list.Len (ll c) < maxElementCount c)%Z ->
  (exists r c1 c2,
     Add (Some v) c = (Ret r, c1) ∧
     Get (GetKey v) c1 = (Ret (Some v), c2) ∧
     Has (GetKey v) c1 = (Ret true, c1) ∧
     exists r' c3,
       Remove (GetKey v) c1 = (Ret r', c3) ∧
       Get (GetKey v) c3 = (Ret None, c3) ∧
       Has (GetKey v) c3 = (Ret false, c3)) ∧
  (exists r c',
     Remove key c = (Ret r, c') ∧
     Get key c' = (Ret None, c') ∧
     Has key c' = (Ret false, c')).
Proof.
  intros Hwf Hspare. unfold list.Len in Hspare. fold (count c) in Hspare.
  split.
  - destruct (Add_cases c v Hwf) as (r & c1 & Hadd & Hwf1 & _ & Hcase).
    assert (v ∈ entries c1) as Hin.
    { destruct Hcase as [(_ & _ & _ & ->)|[(_ & _ & _ & -> & _)|(_ & ? & _)]];
        [by left|by left|lia]. }
    assert (is_Some (dict c1 !! bytes_to_string (GetKey v))) as Hsome.
    { apply (wf_dict_keys c1 (skey v) Hwf1). by apply list_elem_of_fmap_2. }
    destruct (Get_cases c1 (GetKey v) Hwf1)
      as ([n|] & c2 & Hget & _ & _ & _ & _ & Hr).
    + destruct Hr as (Hk & Hn & _).
      assert (n = v) as -> by by apply (entries_key_inj c1).
      destruct (Remove_then_absent c1 (GetKey v) Hwf1)
        as (r' & c3 & Hrem & _ & _ & Hget3 & Hhas3).
      exists r, c1, c2. split_and!; [done..| |by exists r', c3].
      rewrite Has_eq. by rewrite bool_decide_eq_true_2.
    + destruct Hr as [Hnone _]. rewrite Hnone in Hsome. by destruct Hsome.
  - destruct (Remove_then_absent c key Hwf) as (r & c' & ? & _ & _ & ? & ?).
    by exists r, c'.
Qed.

(** ** What the operations leave alone *)

(** C10: [Get] of a key that is not in the index returns nil and leaves
    the cache as it was, and so does [Remove] of such a key; [Has]
    leaves the cache as it was, whatever it returns; [Get] of any key
    leaves the index, the nodes the elements hold, the capacity and the
    membership of the list as they were, and in a well-formed cache the
    list it leaves is a permutation of the list it found. *)
Theorem frame_conditions (c : lruCache A) (key : list byte) :
  (dict c !! bytes_to_string key = None -> Get key c = (Ret None, c)) ∧
  (dict c !! bytes_to_string key = None -> Remove key c = (Ret None, c)) ∧
  Has key c = (Ret (bool_decide (is_Some (dict c !! bytes_to_string key))), c) ∧
  (let c' := state_of (Get key c) in
   dict c' = dict c ∧
   list.Value (ll c') = list.Value (ll c) ∧
   list.fresh (ll c') = list.fresh (ll c) ∧
   maxElementCount c' = maxElementCount c ∧
   (forall e, e ∈ list.order (ll c') <-> e ∈ list.order (ll c)) ∧
   (wf c -> list.order (ll c') ≡ₚ list.order (ll c) ∧
            result_of (Len c') = result_of (Len c))).
Proof.
  split_and!; [apply Get_miss_eq|apply Remove_miss_eq|apply Has_eq|].
  assert (state_of (Get key c) = c ∨
          exists e, e ∈ list.order (ll c) ∧ state_of (Get key c) = fronted e c)
    as [->|(e & He & ->)].
  { unfold Get, mbind, M_bind, dict_Load. cbn beta iota.
    destruct (dict c !! bytes_to_string key) as [e|]; [|by left].
    unfold ll_MoveToFront, list.MoveToFront, load_Value, set_ll. cbn.
    case_bool_decide as He; cbn.
    - right. exists e. split; [done|].
      by destruct (list.Value (ll c) !! e) as [[?|]|].
    - left. destruct c as [d m l]; cbn. by destruct (list.Value l !! e) as [[?|]|]. }
  - cbn zeta. by split_and!.
  - cbn zeta. split_and!; try done.
    + intros x. cbn. rewrite elem_of_cons, unlink_elem_of.
      destruct (decide (x = e)) as [->|?]; naive_solver.
    + intros Hwf.
      assert (e :: list.unlink e (list.order (ll c)) ≡ₚ list.order (ll c)) as Hp.
      { apply NoDup_Permutation.
        - constructor; [|apply unlink_NoDup, Hwf].
          rewrite unlink_elem_of. by intros [? _].
        - apply Hwf.
        - intros x. rewrite elem_of_cons, unlink_elem_of.
          destruct (decide (x = e)) as [->|?]; naive_solver. }
      split; [exact Hp|]. rewrite !Len_eq. unfold result_of, fronted.
      cbn [fst ll list.order]. by rewrite Hp.
Qed.

(** ** The order of eviction *)

Lemma dict_miss c k : wf c -> k ∉ keys c -> dict c !! k = None.
Proof.
  intros Hwf Hk. apply eq_None_not_Some. by rewrite (wf_dict_keys c k Hwf).
Qed.

(** Adding nodes with new, distinct keys while there is room: every
    [Add] returns nil and the nodes pile up at the front. *)
Lemma AddAll_room (ns : list A) c :
  wf c ->
  (Z.of_nat (count c + length ns) <= maxElementCount c)%Z ->
  NoDup (skey <$> ns) ->
  (forall n, n ∈ ns -> skey n ∉ keys c) ->
  exists c', AddAll ns c = (Ret (replicate (length ns) None), c') ∧ wf c' ∧
    maxElementCount c' = maxElementCount c ∧
    entries c' = reverse ns ++ entries c.
Proof.
  revert c. induction ns as [|n ns IH]; intros c Hwf Hroom Hnd Hnew.
  - exists c. by split_and!.
  - rewrite fmap_cons in Hnd. apply NoDup_cons in Hnd as [Hn Hnd].
    assert (dict c !! skey n = None) as Hd.
    { apply dict_miss; [done|]. apply Hnew. by left. }
    pose proof (wf_pushed c n Hwf Hd) as Hwf1.
    pose proof (entries_pushed c n Hwf) as Hent.
    destruct (IH (pushed n c)) as (c' & Hall & Hwf' & Hmax & Hent'); [done| |done| |].
    + unfold count in *. cbn in *. lia.
    + intros n' Hn'. unfold keys. rewrite Hent, fmap_cons.
      apply not_elem_of_cons. split.
      * intros Heq. apply Hn. rewrite <- Heq. by apply list_elem_of_fmap_2.
      * apply Hnew. by right.
    + exists c'. split_and!; [|done|done|].
      * cbn [AddAll]. unfold mbind, M_bind.
        rewrite (Add_room_spec c n Hd) by (unfold count in *; cbn in *; lia).
        by rewrite Hall.
      * rewrite Hent', Hent, reverse_cons, <- app_assoc. done.
Qed.

Lemma Add_full c n :
  wf c -> skey n ∉ keys c -> Z.of_nat (count c) = maxElementCount c ->
  exists old c', Add (Some n) c = (Ret (Some old), c') ∧ wf c' ∧
    maxElementCount c' = maxElementCount c ∧
    n :: entries c = entries c' ++ [old].
Proof.
  intros Hwf Hk Hfull.
  destruct (Add_cases c n Hwf) as (r & c' & Hadd & Hwf' & Hmax & Hcase).
  destruct Hcase as [(? & _)|[(_ & ? & _)|(_ & _ & _ & old & -> & Hent)]];
    [done|lia|].
  by exists old, c'.
Qed.

(** With nothing between the insertions: in a fresh cache of capacity
    [C], adding [C] nodes [k1 :: ns] and then one more node [kl], all
    with distinct keys, makes every [Add] but the last return nil and
    the last [Add] return [k1]; the cache then holds [kl] and the nodes
    of [ns], latest first, and [Has] of the key of [k1] returns false. *)
Lemma eviction_order_plain (C : Z) (k1 : A) (ns : list A) (kl : A) :
  Z.of_nat (length (k1 :: ns)) = C ->
  NoDup (skey <$> (k1 :: ns ++ [kl])) ->
  exists c1 c2,
    AddAll (k1 :: ns) (New C) = (Ret (replicate (length (k1 :: ns)) None), c1) ∧
    Add (Some kl) c1 = (Ret (Some k1), c2) ∧
    entries c2 = kl :: reverse ns ∧
    Has (GetKey k1) c2 = (Ret false, c2).
Proof.
  intros HC Hnd.
  assert (NoDup (skey <$> (k1 :: ns)) ∧ skey kl ∉ (skey <$> (k1 :: ns)))
    as [Hnd1 Hkl].
  { rewrite app_comm_cons, fmap_app in Hnd.
    apply NoDup_app in Hnd as (? & Hdisj & _). split; [done|].
    intros Hin. apply (Hdisj _ Hin). cbn. by left. }
  destruct (AddAll_room (k1 :: ns) (New C)) as (c1 & Hall & Hwf1 & Hmax1 & Hent1).
  { apply wf_New. }
  { unfold count. cbn in *. lia. }
  { done. }
  { intros n _. unfold keys. cbn. apply not_elem_of_nil. }
  rewrite app_nil_r, reverse_cons in Hent1.
  destruct (Add_full c1 kl) as (old & c2 & Hadd & Hwf2 & _ & Hent2).
  { done. }
  { unfold keys. rewrite Hent1, <- reverse_cons, fmap_reverse.
    by rewrite elem_of_reverse. }
  { rewrite <- entries_count, Hent1 by done. rewrite Hmax1. cbn.
    rewrite length_app, length_reverse. cbn in *. lia. }
  rewrite Hent1, app_comm_cons in Hent2.
  apply app_inj_tail in Hent2 as [Hent2 <-].
  exists c1, c2. split_and!; [done..|].
  rewrite Has_eq. rewrite dict_miss; [|done|].
  - by rewrite bool_decide_eq_false_2 by by intros [].
  - unfold keys. rewrite <- Hent2, fmap_cons, fmap_reverse.
    rewrite fmap_cons in Hnd. apply NoDup_cons in Hnd as [Hk1 _].
    rewrite fmap_app in Hk1. cbn in Hk1.
    rewrite elem_of_cons, elem_of_reverse. set_solver.
Qed.

(** *** Reads between the insertions *)

Lemma promote_Permutation (l : list A) (n : A) :
  NoDup (skey <$> l) -> n ∈ l ->
  l ≡ₚ n :: filter (λ y, skey y ≠ skey n) l.
Proof.
  induction l as [|y l IH]; intros Hnd Hin; [by apply elem_of_nil in Hin|].
  rewrite fmap_cons in Hnd. apply NoDup_cons in Hnd as [Hy Hnd].
  apply elem_of_cons in Hin as [->|Hin].
  - rewrite filter_cons_False by (intros ?; congruence).
    rewrite filter_keeps_all; [done|]. intros z Hz Heq. apply Hy.
    rewrite <- Heq. by apply list_elem_of_fmap_2.
  - assert (skey y ≠ skey n) as Hne.
    { intros Heq. apply Hy. rewrite Heq. by apply list_elem_of_fmap_2. }
    rewrite filter_cons_True by done.
    rewrite (IH Hnd Hin) at 1. apply Permutation_swap.
Qed.

(** Reads leave an empty cache as it is. *)
Lemma run_reads_empty (rs : list (op A)) c :
  forallb is_read rs = true -> dict c = ∅ -> run rs c = (Ret (), c).
Proof.
  induction rs as [|o rs IH]; intros Hrs Hd; [done|].
  cbn in Hrs. apply andb_prop in Hrs as [Ho Hrs].
  assert (exec o c = (Ret (), c)) as Hex.
  { destruct o as [?|key|key|?|]; try done; unfold exec, mbind, M_bind; cbn beta.
    rewrite Get_miss_eq; [done|]. by rewrite Hd. }
  cbn [run]. unfold mbind, M_bind. rewrite Hex. by apply IH.
Qed.

(** A read that does not name the key of the last node leaves that node
    last, and the same nodes in the cache. *)
Lemma exec_read_away c (k1 : A) (o : op A) :
  wf c -> last (entries c) = Some k1 -> reads_away (skey k1) o = true ->
  exists c', exec o c = (Ret (), c') ∧ wf c' ∧
    maxElementCount c' = maxElementCount c ∧
    last (entries c') = Some k1 ∧ entries c' ≡ₚ entries c.
Proof.
  intros Hwf Hlast Ho.
  destruct o as [?|key|key|?|]; try done; unfold exec, mbind, M_bind; cbn beta.
  - cbn in Ho. apply bool_decide_eq_true in Ho.
    destruct (Get_cases c key Hwf) as ([n|] & c' & -> & Hwf' & Hmax & _ & _ & Hr).
    + destruct Hr as (Hk & Hin & Hent).
      exists c'. split_and!; [done..| |].
      * apply last_Some in Hlast as [pre Hpre].
        rewrite Hent, Hpre, filter_app, filter_cons_True by done.
        rewrite filter_nil, app_comm_cons. apply last_snoc.
      * rewrite Hent, <- Hk. symmetry.
        apply promote_Permutation; [by apply (wf_keys_NoDup c)|done].
    + destruct Hr as [_ ->]. by exists c.
  - by exists c.
  - by exists c.
Qed.

Lemma run_reads_away c (k1 : A) (rs : list (op A)) :
  wf c -> last (entries c) = Some k1 ->
  forallb (reads_away (skey k1)) rs = true ->
  exists c', run rs c = (Ret (), c') ∧ wf c' ∧
    maxElementCount c' = maxElementCount c ∧
    last (entries c') = Some k1 ∧ entries c' ≡ₚ entries c.
Proof.
  revert c. induction rs as [|o rs IH]; intros c Hwf Hlast Hrs.
  - by exists c.
  - cbn in Hrs. apply andb_prop in Hrs as [Ho Hrs].
    destruct (exec_read_away c k1 o Hwf Hlast Ho)
      as (c1 & Hex & Hwf1 & Hmax1 & Hlast1 & Hp1).
    destruct (IH c1 Hwf1 Hlast1 Hrs) as (c' & Hrun & Hwf' & Hmax' & Hlast' & Hp').
    exists c'. split_and!; [|done|congruence|done|by rewrite Hp'].
    cbn [run]. unfold mbind, M_bind. by rewrite Hex.
Qed.

(** Adding nodes with new, distinct keys while there is room, with reads
    of other keys than that of the last node in between: every [Add]
    returns nil and the last node stays last. *)
Lemma AddAllWith_room (k1 : A) (steps : list (list (op A) * A)) c :
  wf c -> last (entries c) = Some k1 ->
  forallb (λ s, forallb (reads_away (skey k1)) s.1) steps = true ->
  NoDup (skey <$> steps.*2) ->
  (forall n, n ∈ steps.*2 -> skey n ∉ keys c) ->
  (Z.of_nat (count c + length steps) <= maxElementCount c)%Z ->
  exists c', AddAllWith steps c = (Ret (replicate (length steps) None), c') ∧
    wf c' ∧ maxElementCount c' = maxElementCount c ∧
    last (entries c') = Some k1 ∧
    entries c' ≡ₚ reverse steps.*2 ++ entries c.
Proof.
  revert c. induction steps as [|[before n] steps IH];
    intros c Hwf Hlast Hrs Hnd Hnew Hroom.
  - exists c. by split_and!.
  - cbn in Hrs. apply andb_prop in Hrs as [Hb Hrs].
    change (NoDup (skey n :: (skey <$> steps.*2))) in Hnd.
    apply NoDup_cons in Hnd as [Hn Hnd].
    destruct (run_reads_away c k1 before Hwf Hlast Hb)
      as (ca & Hrun & Hwfa & Hmaxa & Hlasta & Hpa).
    assert (count ca = count c) as Hca.
    { rewrite <- !entries_count by done. by rewrite Hpa. }
    assert (forall m, skey m ∉ keys c -> skey m ∉ keys ca) as Hkeys.
    { intros m Hm. unfold keys. by rewrite Hpa. }
    assert (dict ca !! skey n = None) as Hd.
    { apply dict_miss; [done|]. apply Hkeys, Hnew. by left. }
    pose proof (wf_pushed ca n Hwfa Hd) as Hwf1.
    pose proof (entries_pushed ca n Hwfa) as Hent1.
    destruct (IH (pushed n ca)) as (c' & Hall & Hwf' & Hmax' & Hlast' & Hp');
      [done| |done|done| | |].
    + rewrite Hent1, last_cons, Hlasta. done.
    + intros m Hm. unfold keys. rewrite Hent1, fmap_cons.
      apply not_elem_of_cons. split.
      * intros Heq. apply Hn. rewrite <- Heq. by apply list_elem_of_fmap_2.
      * apply Hkeys, Hnew. by right.
    + unfold count in *. cbn in *. lia.
    + exists c'. split_and!; [|done|by rewrite Hmax'|done|].
      * cbn [AddAllWith]. unfold mbind, M_bind. rewrite Hrun.
        rewrite (Add_room_spec ca n Hd) by (unfold count in *; cbn in *; lia).
        by rewrite Hall.
      * change (((before, n) :: steps).*2) with (n :: steps.*2).
        rewrite reverse_cons, <- app_assoc, Hp', Hent1, Hpa. done.
Qed.

(** C5: in a fresh cache of capacity [C], take [C] nodes [k1 :: ns]
    and one more node [kl], all with distinct keys, added in that order
    (so [C] is at least 1).  Before [k1] is added any [Get], [Has] and
    [Len] calls may run; between the later insertions any [Get], [Has]
    and [Len] calls may run that do not name the key of [k1].  Then
    every call returns, every [Add] but the last returns nil, and the
    [Add] of [kl] returns [k1]; afterwards [Has] of the key of [k1]
    returns false, [kl] is the first node, and the cache holds exactly
    [kl] and the nodes of [ns]. *)
Theorem eviction_order (C : Z) (k1 : A) (first : list (op A))
    (steps : list (list (op A) * A)) (before_last : list (op A)) (kl : A) :
  Z.of_nat (length (k1 :: steps.*2)) = C ->
  NoDup (skey <$> (k1 :: steps.*2 ++ [kl])) ->
  forallb is_read first = true ->
  forallb (λ s, forallb (reads_away (skey k1)) s.1) steps = true ->
  forallb (reads_away (skey k1)) before_last = true ->
  exists c1 c1' c2,
    AddAllWith ((first, k1) :: steps) (New C)
      = (Ret (replicate (length (k1 :: steps.*2)) None), c1) ∧
    run before_last c1 = (Ret (), c1') ∧
    Add (Some kl) c1' = (Ret (Some k1), c2) ∧
    Has (GetKey k1) c2 = (Ret false, c2) ∧
    head (entries c2) = Some kl ∧
    entries c2 ≡ₚ kl :: steps.*2 ∧
    (forall n, n ∈ kl :: steps.*2 -> Has (GetKey n) c2 = (Ret true, c2)).
Proof.
  intros HC Hnd Hfirst Hsteps Hlast.
  set (ns := steps.*2) in *.
  assert (length ns = length steps) as Hlen by apply length_fmap.
  assert (NoDup (skey <$> (k1 :: ns)) ∧ skey kl ∉ (skey <$> (k1 :: ns)))
    as [Hnd1 Hkl].
  { rewrite app_comm_cons, fmap_app in Hnd.
    apply NoDup_app in Hnd as (? & Hdisj & _). split; [done|].
    intros Hin. apply (Hdisj _ Hin). cbn. by left. }
  rewrite fmap_cons in Hnd1. apply NoDup_cons in Hnd1 as [Hk1 Hnd1].
  (* the calls before the first insertion, and the first insertion *)
  pose proof (run_reads_empty first (New C) Hfirst eq_refl) as Hrun0.
  assert (dict (New C : lruCache A) !! skey k1 = None) as Hd0 by done.
  assert (Add (Some k1) (New C) = (Ret None, pushed k1 (New C))) as Hadd0.
  { apply Add_room_spec; [done|]. cbn in *. lia. }
  pose proof (wf_pushed _ k1 (wf_New C) Hd0) as Hwf0.
  pose proof (entries_pushed _ k1 (wf_New C)) as Hent0.
  change (entries (New C)) with (@nil A) in Hent0.
  (* the other insertions but the last *)
  destruct (AddAllWith_room k1 steps (pushed k1 (New C)))
    as (c1 & Hall & Hwf1 & Hmax1 & Hlast1 & Hp1); [done| |done|done| | |].
  { by rewrite Hent0. }
  { intros n Hn. unfold keys. rewrite Hent0. cbn.
    intros Hin. apply list_elem_of_singleton in Hin.
    apply Hk1. rewrite <- Hin. by apply list_elem_of_fmap_2. }
  { unfold count. cbn in *. lia. }
  rewrite Hent0 in Hp1.
  (* the calls before the last insertion *)
  destruct (run_reads_away c1 k1 before_last Hwf1 Hlast1 Hlast)
    as (c1' & Hrun & Hwf1' & Hmax1' & Hlast1' & Hp1').
  assert (entries c1' ≡ₚ k1 :: ns) as Hp.
  { rewrite Hp1', Hp1, reverse_Permutation. fold ns.
    by rewrite <- Permutation_cons_append. }
  (* the last insertion *)
  destruct (Add_full c1' kl) as (old & c2 & Hadd & Hwf2 & _ & Hent2).
  { done. }
  { unfold keys. by rewrite Hp. }
  { rewrite <- entries_count, Hp by done. rewrite Hmax1', Hmax1. cbn in *. lia. }
  apply last_Some in Hlast1' as [pre Hpre].
  rewrite Hpre, app_comm_cons in Hent2.
  apply app_inj_tail in Hent2 as [Hent2 <-].
  assert (pre ≡ₚ ns) as Hpre'.
  { apply (Permutation_cons_inv (a := k1)).
    by rewrite <- Hp, Hpre, <- Permutation_cons_append. }
  exists c1, c1', c2. split_and!.
  - cbn [AddAllWith]. unfold mbind, M_bind.
    rewrite Hrun0, Hadd0, Hall. cbn. by rewrite Hlen.
  - done.
  - done.
  - rewrite Has_eq. rewrite dict_miss; [|done|].
    + by rewrite bool_decide_eq_false_2 by by intros [].
    + unfold keys. rewrite <- Hent2, Hpre', fmap_cons.
      apply not_elem_of_cons. split; [|done].
      intros Heq. apply Hkl. rewrite <- Heq. cbn. by left.
  - by rewrite <- Hent2.
  - by rewrite <- Hent2, Hpre'.
  - intros n Hn. rewrite Has_eq. rewrite bool_decide_eq_true_2; [done|].
    apply (wf_dict_keys c2 (skey n) Hwf2). unfold keys.
    apply list_elem_of_fmap_2. by rewrite <- Hent2, Hpre'.
Qed.

(** C6: in a fresh cache of capacity [C], after adding [C] nodes
    [k1 :: k2 :: ns] with distinct keys, [Get] of the key of [k1] returns
    [k1], and [Add] of a node [kl] with yet another key then returns
    [k2]; the cache then holds [kl], [k1] and the nodes of [ns], latest
    first.  The capacity is at least 2, as it is the length of
    [k1 :: k2 :: ns]. *)
Theorem promotion_on_read (C : Z) (k1 k2 : A) (ns : list A) (kl : A) :
  Z.of_nat (length (k1 :: k2 :: ns)) = C ->
  NoDup (skey <$> (k1 :: k2 :: ns ++ [kl])) ->
  exists c1 c2 c3,
    AddAll (k1 :: k2 :: ns) (New C)
      = (Ret (replicate (length (k1 :: k2 :: ns)) None), c1) ∧
    Get (GetKey k1) c1 = (Ret (Some k1), c2) ∧
    Add (Some kl) c2 = (Ret (Some k2), c3) ∧
    entries c3 = kl :: k1 :: reverse ns ∧
    Has (GetKey k1) c3 = (Ret true, c3) ∧
    Has (GetKey k2) c3 = (Ret false, c3).
Proof.
  intros HC Hnd.
  assert (NoDup (skey <$> (k1 :: k2 :: ns)) ∧
          skey kl ∉ (skey <$> (k1 :: k2 :: ns))) as [Hnd1 Hkl].
  { rewrite !app_comm_cons, fmap_app in Hnd.
    apply NoDup_app in Hnd as (? & Hdisj & _). split; [done|].
    intros Hin. apply (Hdisj _ Hin). cbn. by left. }
  destruct (AddAll_room (k1 :: k2 :: ns) (New C))
    as (c1 & Hall & Hwf1 & Hmax1 & Hent1).
  { apply wf_New. }
  { unfold count. cbn in *. lia. }
  { done. }
  { intros n _. unfold keys. cbn. apply not_elem_of_nil. }
  rewrite app_nil_r, !reverse_cons in Hent1.
  assert (count c1 = length (k1 :: k2 :: ns)) as Hc1.
  { rewrite <- entries_count, Hent1 by done.
    rewrite !length_app, length_reverse. cbn. lia. }
  destruct (Get_cases c1 (GetKey k1) Hwf1)
    as ([n|] & c2 & Hget & Hwf2 & Hmax2 & Hc2 & _ & Hr).
  2:{ destruct Hr as [Hnone _].
      assert (is_Some (dict c1 !! skey k1)) as [e He]; [|unfold skey in He; congruence].
      apply (wf_dict_keys c1 _ Hwf1). unfold keys. rewrite Hent1.
      apply list_elem_of_fmap_2. set_solver. }
  destruct Hr as (Hk & Hn & Hent2).
  assert (n = k1) as ->.
  { apply (entries_key_inj c1); [done..| |done]. rewrite Hent1. set_solver. }
  assert (entries c2 = k1 :: (reverse ns ++ [k2])) as Hent2'.
  { change (bytes_to_string (GetKey k1)) with (skey k1) in Hent2.
    rewrite Hent2, Hent1. f_equal. apply (filter_key_last skey).
    rewrite <- Hent1. by apply (wf_keys_NoDup c1). }
  destruct (Add_full c2 kl) as (old & c3 & Hadd & Hwf3 & _ & Hent3).
  { done. }
  { unfold keys. rewrite Hent2'. intros Hin. apply Hkl.
    rewrite !fmap_cons, fmap_app, fmap_reverse in Hin. cbn in Hin.
    rewrite !fmap_cons. set_solver. }
  { rewrite Hc2, Hc1, Hmax2, Hmax1. cbn. done. }
  rewrite Hent2', !app_comm_cons in Hent3.
  apply app_inj_tail in Hent3 as [Hent3 <-].
  exists c1, c2, c3. split_and!; [done..| |].
  - rewrite Has_eq. rewrite bool_decide_eq_true_2; [done|].
    apply (wf_dict_keys c3 (skey k1) Hwf3). unfold keys. rewrite <- Hent3.
    apply list_elem_of_fmap_2. set_solver.
  - rewrite Has_eq. rewrite dict_miss; [|done|].
    + by rewrite bool_decide_eq_false_2 by by intros [].
    + unfold keys. rewrite <- Hent3, !fmap_cons, fmap_reverse.
      rewrite !fmap_cons, fmap_app in Hnd. cbn in Hnd.
      apply NoDup_cons in Hnd as [Hk1 Hnd]. apply NoDup_cons in Hnd as [Hk2 _].
      rewrite !elem_of_cons, elem_of_reverse. set_solver.
Qed.

(** The caches reached from a fresh one are well-formed. *)
Lemma run_wf (C : Z) (ops : list (op A)) : wf (state_of (run ops (New C))).
Proof. by destruct (run_bounded C ops (New C) (bounded_New C)) as [(? & _) _]. Qed.

Lemma AddAll_wf (C : Z) (ns : list A) : wf (state_of (AddAll ns (New C))).
Proof.
  destruct (AddAll_tracked C ns ∅ (New C) (tracked_New C))
    as (rs & c & -> & _ & (Hwf & _) & _).
  exact Hwf.
Qed.

End theory.

(** ** The properties on a cache of items *)

(** With a capacity of -1 the list is empty after an [Add], and 0 is
    not at most -1: the bound [Len() <= C] fails below zero. *)
Lemma capacity_invariant_fails_below_zero :
  ~ (forall (C : Z) (ns : list item) (len : Z),
       result_of (Len (state_of (AddAll ns (New C)))) = Ret len ->
       (len <= C)%Z).
Proof.
  intros Hle.
  assert (0 <= -1)%Z as Habs; [|lia].
  apply (Hle (-1)%Z [na] 0%Z). vm_compute. reflexivity.
Qed.

(** Adding 'c' to a full cache of capacity 2 that holds 'b' and 'a'. *)
Lemma Add_new_key_witness :
  let c := state_of (AddAll [na; nb] (New 2)) in
  wf c ∧ dict c !! skey nc = None ∧
  exists c', Add (Some nc) c = (Ret (Some na), c') ∧ entries c' = [nc; nb].
Proof.
  intros c.
  assert (wf c) as Hwf by apply AddAll_wf.
  assert (dict c !! skey nc = None) as Hd by (vm_compute; reflexivity).
  split; [exact Hwf|]. split; [exact Hd|].
  destruct (Add_new_key c nc Hwf Hd) as (_ & r & c' & Hadd & _ & _ & _ & Hcase).
  assert ((Z.of_nat (length (list.fresh (ll c) :: list.order (ll c)))
           >? maxElementCount c)%Z = true) as Hgt by (vm_compute; reflexivity).
  rewrite Hgt in Hcase.
  destruct Hcase as (b & old & Hb & Hold & _ & Hr & _ & _ & _ & Hent).
  vm_compute in Hb. injection Hb as <-.
  vm_compute in Hold. injection Hold as <-.
  exists c'. rewrite Hr in Hadd. split; [exact Hadd|].
  apply (app_inj_tail (entries c') [nc; nb] na na). symmetry. exact Hent.
Defined.


(** Adding a second node with the key 'a' to a cache that holds 'b' and 'a'. *)
Lemma Add_existing_key_witness :
  let c := state_of (AddAll [na; nb] (New 2)) in
  wf c ∧ dict c !! skey na' = Some 0 ∧
  exists c', Add (Some na') c = (Ret (Some na), c') ∧
    list.order (ll c') = [0; 1] ∧ dict c' = dict c.
Proof.
  intros c.
  assert (wf c) as Hwf by apply AddAll_wf.
  assert (dict c !! skey na' = Some 0) as Hd by (vm_compute; reflexivity).
  split; [exact Hwf|]. split; [exact Hd|].
  destruct (Add_existing_key c na' 0 Hwf Hd)
    as (old & c' & Hold & _ & Hadd & _ & Hord & _ & _ & _ & Hdict & _).
  vm_compute in Hold. injection Hold as <-.
  exists c'. split; [exact Hadd|]. split; [|exact Hdict].
  rewrite Hord. vm_compute. reflexivity.
Defined.

(** Capacity 2 and the nodes 'a', 'b', 'c', with a read of 'a' before
    it is added, a read of 'c' before 'b' is added, and reads of 'b'
    before 'c' is added. *)
Lemma eviction_order_witness :
  let first := [OpGet (GetKey na); OpLen] in
  let steps := [([OpHas (GetKey nc)], nb)] in
  let before_last := [OpGet (GetKey nb); OpHas (GetKey nb); OpLen] in
  Z.of_nat (length (na :: steps.*2)) = 2%Z ∧
  NoDup (skey <$> (na :: steps.*2 ++ [nc])) ∧
  forallb is_read first = true ∧
  forallb (λ s, forallb (reads_away (skey na)) s.1) steps = true ∧
  forallb (reads_away (skey na)) before_last = true ∧
  exists c1 c1' c2,
    AddAllWith ((first, na) :: steps) (New 2) = (Ret [None; None], c1) ∧
    run before_last c1 = (Ret (), c1') ∧
    Add (Some nc) c1' = (Ret (Some na), c2) ∧
    Has (GetKey na) c2 = (Ret false, c2).
Proof.
  intros first steps before_last.
  assert (NoDup (skey <$> (na :: steps.*2 ++ [nc]))) as Hnd.
  { refine (bool_decide_unpack _ _). vm_compute. exact I. }
  split; [reflexivity|]. split; [exact Hnd|].
  split; [reflexivity|]. split; [reflexivity|]. split; [reflexivity|].
  destruct (eviction_order 2 na first steps before_last nc
              eq_refl Hnd eq_refl eq_refl eq_refl)
    as (c1 & c1' & c2 & Hall & Hrun & Hadd & Hhas & _).
  exists c1, c1', c2.
  split; [exact Hall|]. split; [exact Hrun|]. split; [exact Hadd|exact Hhas].
Defined.

(** Capacity 2, the nodes 'a' and 'b', a read of 'a', then 'c'. *)
Lemma promotion_on_read_witness :
  Z.of_nat (length [na; nb]) = 2%Z ∧ NoDup (skey <$> [na; nb; nc]) ∧
  exists c1 c2 c3,
    AddAll [na; nb] (New 2) = (Ret [None; None], c1) ∧
    Get (GetKey na) c1 = (Ret (Some na), c2) ∧
    Add (Some nc) c2 = (Ret (Some nb), c3) ∧
    entries c3 = [nc; na].
Proof.
  assert (NoDup (skey <$> [na; nb; nc])) as Hnd.
  { refine (bool_decide_unpack _ _). vm_compute. exact I. }
  split; [reflexivity|]. split; [exact Hnd|].
  destruct (promotion_on_read 2 na nb [] nc eq_refl Hnd)
    as (c1 & c2 & c3 & Hall & Hget & Hadd & Hent & _).
  exists c1, c2, c3.
  split; [exact Hall|]. split; [exact Hget|]. split; [exact Hadd|exact Hent].
Defined.

(** A cache of capacity 2 that holds 'a', and the node 'b'. *)
Lemma round_trip_witness :
  let c := state_of (AddAll [na] (New 2)) in
  wf c ∧ (list.Len (ll c) < maxElementCount c)%Z ∧
  exists r c1 c2,
    Add (Some nb) c = (Ret r, c1) ∧
    Get (GetKey nb) c1 = (Ret (Some nb), c2) ∧
    Has (GetKey nb) c1 = (Ret true, c1).
Proof.
  intros c.
  assert (wf c) as Hwf by apply AddAll_wf.
  assert (list.Len (ll c) < maxElementCount c)%Z as Hsp by (vm_compute; reflexivity).
  split; [exact Hwf|]. split; [exact Hsp|].
  destruct (round_trip c nb (GetKey na) Hwf Hsp)
    as [(r & c1 & c2 & Hadd & Hget & Hhas & _) _].
  exists r, c1, c2. split; [exact Hadd|]. split; [exact Hget|exact Hhas].
Defined.

(** Capacity 0, after an [Add] and a [Get]. *)
Lemma zero_capacity_evicts_at_once_witness :
  (0 <= 0)%Z ∧
  let c := state_of (run [OpAdd (Some na); OpGet (GetKey na)] (New 0)) in
  exists c', Add (Some nb) c = (Ret (Some nb), c') ∧
    list.order (ll c') = [] ∧ dict c' = ∅.
Proof.
  assert (0 <= 0)%Z as H0 by reflexivity.
  split; [exact H0|]. intros c.
  destruct (zero_capacity_evicts_at_once 0
              [OpAdd (Some na); OpGet (GetKey na)] nb H0)
    as (_ & _ & c' & Hadd & Ho & Hd & _).
  exists c'. split; [exact Hadd|]. split; [exact Ho|exact Hd].
Defined.

(** A cache that holds 'a', and the key 'b'. *)
Lemma frame_conditions_witness :
  let c := state_of (AddAll [na] (New 2)) in
  wf c ∧ dict c !! bytes_to_string (GetKey nb) = None ∧
  Get (GetKey nb) c = (Ret None, c) ∧
  Remove (GetKey nb) c = (Ret None, c) ∧
  list.order (ll (state_of (Get (GetKey nb) c))) ≡ₚ list.order (ll c).
Proof.
  intros c.
  assert (wf c) as Hwf by apply AddAll_wf.
  assert (dict c !! bytes_to_string (GetKey nb) = None) as Hd
    by (vm_compute; reflexivity).
  split; [exact Hwf|]. split; [exact Hd|].
  destruct (frame_conditions c (GetKey nb))
    as (Hget & Hrem & _ & _ & _ & _ & _ & _ & Hperm).
  split; [exact (Hget Hd)|]. split; [exact (Hrem Hd)|].
  exact (proj1 (Hperm Hwf)).
Defined.

(** ** Further properties of the operations *)

Section further.
Context {A : Type} `{Node A}.
Implicit Types (c : lruCache A) (n : A) (e : ptr) (k : string).

(** What [Get] returns is read off the index and the element the index
    points to. *)
Lemma Get_result c key :
  result_of (Get key c) =
    match dict c !! bytes_to_string key with
    | Some e =>
        match list.Value (ll c) !! e with
        | Some (Some n) => Ret (Some n)
        | _ => Panic
        end
    | None => Ret None
    end.
Proof.
  unfold Get, mbind, M_bind, dict_Load. cbn beta iota.
  destruct (dict c !! bytes_to_string key) as [e|]; [|done].
  unfold ll_MoveToFront, list.MoveToFront, load_Value, set_ll. cbn.
  case_bool_decide; cbn; by destruct (list.Value (ll c) !! e) as [[?|]|].
Qed.

Lemma Has_result c key :
  result_of (Has key c) = Ret (bool_decide (is_Some (dict c !! bytes_to_string key))).
Proof. by rewrite Has_eq. Qed.

(** A node of the list is found under its key. *)
Lemma Get_of_entry c v :
  wf c -> v ∈ entries c ->
  (exists c', Get (GetKey v) c = (Ret (Some v), c')) ∧
  Has (GetKey v) c = (Ret true, c).
Proof.
  intros Hwf Hv. apply entries_elem_of in Hv as (e & He & Hn).
  destruct (node_at_Some c e v Hwf He Hn) as [Hval Hd]. split.
  - exists (fronted e c). by apply Get_hit_eq.
  - rewrite Has_eq. unfold skey in Hd. rewrite Hd.
    by rewrite bool_decide_eq_true_2.
Qed.

(** The element at the front holds the first node. *)
Lemma front_element c n :
  wf c -> head (entries c) = Some n ->
  exists e rest, list.order (ll c) = e :: rest ∧
    list.Value (ll c) !! e = Some (Some n) ∧ dict c !! skey n = Some e.
Proof.
  intros Hwf Hh. unfold entries in Hh.
  destruct (list.order (ll c)) as [|e rest] eqn:Ho; [done|].
  assert (e ∈ list.order (ll c)) as He by (rewrite Ho; by left).
  destruct (wf_node_at c e Hwf He) as (n' & Hn' & Hv & Hd).
  cbn in Hh. rewrite Hn' in Hh. cbn in Hh. simplify_eq.
  by exists e, rest.
Qed.

Lemma unlink_front e rest :
  NoDup (e :: rest) -> list.unlink e (e :: rest) = rest.
Proof.
  intros Hnd. apply NoDup_cons in Hnd as [He _].
  unfold list.unlink. rewrite filter_cons_False by (intros ?; congruence).
  by apply unlink_absent.
Qed.

(** *** A fresh cache *)

(** X1: a cache made by [New] is empty whatever its capacity: [Len()] is
    0, and for every key [Has] returns false, [Get] returns nil and
    [Remove] returns nil, all of them leaving the cache as it was. *)
Theorem New_is_empty (C : Z) (key : list byte) :
  Len (New C : lruCache A) = (Ret 0%Z, New C) ∧
  Has key (New C : lruCache A) = (Ret false, New C) ∧
  Get key (New C : lruCache A) = (Ret None, New C) ∧
  Remove key (New C : lruCache A) = (Ret None, New C).
Proof.
  split_and!; [done|done| |].
  - by apply Get_miss_eq.
  - by apply Remove_miss_eq.
Qed.

(** *** Reading back what was added *)

(** X2: in a well-formed cache of capacity at least 1, full or not,
    after [Add] of the node [v] that node is the first of the list,
    [Get] of its key returns [v] and [Has] of its key returns true. *)
Theorem Add_then_Get (c : lruCache A) (v : A) :
  wf c -> (1 <= maxElementCount c)%Z ->
  exists r c1 c2,
    Add (Some v) c = (Ret r, c1) ∧
    head (entries c1) = Some v ∧
    Get (GetKey v) c1 = (Ret (Some v), c2) ∧
    Has (GetKey v) c1 = (Ret true, c1).
Proof.
  intros Hwf Hcap.
  destruct (Add_cases c v Hwf) as (r & c1 & Hadd & Hwf1 & _ & Hcase).
  assert (head (entries c1) = Some v) as Hh.
  { destruct Hcase as [(_ & _ & _ & ->)|[(_ & _ & _ & -> & _)
                      |(_ & Hover & Hc & old & _ & Hent)]]; [done|done|].
    rewrite <- !entries_count in Hc by done.
    destruct (entries c1) as [|x xs]; [|by cbn in Hent; simplify_eq].
    cbn in Hc. rewrite <- entries_count, <- Hc in Hover by done. cbn in Hover. lia. }
  assert (v ∈ entries c1) as Hin.
  { destruct (entries c1); cbn in Hh; simplify_eq. by left. }
  destruct (Get_of_entry c1 v Hwf1 Hin) as [[c2 Hget] Hhas].
  by exists r, c1, c2.
Qed.

(** X3: on a well-formed cache [Remove] returns what [Get] of the same
    key returns, and [Has] returns true exactly when [Get] returns a
    node. *)
Theorem Remove_Has_agree_with_Get (c : lruCache A) (key : list byte) :
  wf c ->
  result_of (Remove key c) = result_of (Get key c) ∧
  (exists r, result_of (Get key c) = Ret r ∧
     result_of (Has key c) = Ret (bool_decide (is_Some r))).
Proof.
  intros Hwf. rewrite Has_result.
  destruct (dict c !! bytes_to_string key) as [e|] eqn:Hd.
  - destruct (Get_hit_spec c key e Hwf Hd) as (n & Hv & _ & _ & ->).
    rewrite (Remove_hit_eq c key e n Hd Hv). split; [done|].
    exists (Some n). split; [done|].
    by rewrite !bool_decide_eq_true_2.
  - rewrite (Get_miss_eq c key Hd), (Remove_miss_eq c key Hd).
    split; [done|]. exists None. split; [done|].
    by rewrite !bool_decide_eq_false_2 by by intros [].
Qed.

(** *** Removing a key *)

(** X4: [Remove] of a key that the index of a well-formed cache holds
    returns the node stored under that key, makes [Len()] one less, and
    leaves the other nodes in the order they had. *)
Theorem Remove_present (c : lruCache A) (key : list byte) (e : ptr) :
  wf c -> dict c !! bytes_to_string key = Some e ->
  exists n c' len,
    Remove key c = (Ret (Some n), c') ∧
    node_at c e = Some n ∧ skey n = bytes_to_string key ∧
    wf c' ∧
    Len c = (Ret (len + 1)%Z, c) ∧ Len c' = (Ret len, c') ∧
    entries c' = filter (λ y, skey y ≠ bytes_to_string key) (entries c) ∧
    entries c ≡ₚ n :: entries c'.
Proof.
  intros Hwf Hd.
  destruct (Remove_hit_spec c key e Hwf Hd) as (n & Hv & Hk & Hin & Hrem).
  destruct (wf_dict c Hwf _ _ Hd) as [He _].
  pose proof (unlink_length e _ (wf_NoDup c Hwf) He) as Hlen.
  pose proof (entries_unlinked c _ e Hwf Hd) as Hent.
  exists n, (unlinked (bytes_to_string key) e c),
    (Z.of_nat (length (list.unlink e (list.order (ll c))))).
  split_and!; [done| |done|by apply wf_unlinked| |done|done|].
  - unfold node_at. by rewrite Hv.
  - rewrite Len_eq. do 2 f_equal. lia.
  - rewrite Hent. rewrite <- Hk.
    pose proof (wf_keys_NoDup c Hwf) as Hnd. unfold keys in Hnd.
    clear -Hnd Hin. induction (entries c) as [|y l IH]; [by apply elem_of_nil in Hin|].
    rewrite fmap_cons in Hnd. apply NoDup_cons in Hnd as [Hy Hnd].
    apply elem_of_cons in Hin as [->|Hin].
    + rewrite filter_cons_False by (intros ?; congruence).
      rewrite filter_keeps_all; [done|]. intros z Hz Heq. apply Hy.
      rewrite <- Heq. by apply list_elem_of_fmap_2.
    + assert (skey y ≠ skey n) as Hne.
      { intros Heq. apply Hy. rewrite Heq. by apply list_elem_of_fmap_2. }
      rewrite filter_cons_True by done.
      rewrite (IH Hin Hnd) at 1. apply Permutation_swap.
Qed.

(** X5: [Remove] of a key changes nothing for any other key of a
    well-formed cache: [Get] and [Has] of the other key return what they
    returned before. *)
Theorem Remove_keeps_other_keys (c : lruCache A) (key key' : list byte) :
  wf c -> bytes_to_string key' ≠ bytes_to_string key ->
  let c' := state_of (Remove key c) in
  result_of (Get key' c') = result_of (Get key' c) ∧
  result_of (Has key' c') = result_of (Has key' c).
Proof.
  intros Hwf Hne c'. rewrite !Get_result, !Has_result.
  destruct (dict c !! bytes_to_string key) as [e|] eqn:Hd.
  - destruct (Remove_hit_spec c key e Hwf Hd) as (n & _ & _ & _ & Hrem).
    unfold c'. rewrite Hrem. cbn. by rewrite lookup_delete_ne.
  - unfold c'. by rewrite (Remove_miss_eq c key Hd).
Qed.

(** X9: removing a key from a well-formed cache that holds no more than
    its capacity frees a slot: the next [Add] of a node whose key is the
    removed one, or was not in the cache, returns nil, evicts nothing,
    and brings [Len()] back to what it was. *)
Theorem Remove_frees_a_slot (c : lruCache A) (key : list byte) (n : A) :
  wf c -> (list.Len (ll c) <= maxElementCount c)%Z ->
  is_Some (dict c !! bytes_to_string key) ->
  skey n = bytes_to_string key ∨ dict c !! skey n = None ->
  exists old c1 c2,
    Remove key c = (Ret (Some old), c1) ∧
    Add (Some n) c1 = (Ret None, c2) ∧
    entries c2 = n :: filter (λ y, skey y ≠ bytes_to_string key) (entries c) ∧
    Len c2 = (Ret (list.Len (ll c)), c2).
Proof.
  intros Hwf Hcap [e Hd] Hn. unfold list.Len in Hcap.
  destruct (Remove_hit_spec c key e Hwf Hd) as (old & Hv & Hk & Hin & Hrem).
  destruct (wf_dict c Hwf _ _ Hd) as [He _].
  pose proof (unlink_length e _ (wf_NoDup c Hwf) He) as Hlen.
  pose proof (wf_unlinked c _ e Hwf Hd) as Hwf1.
  set (c1 := unlinked (bytes_to_string key) e c) in *.
  assert (dict c1 !! skey n = None) as Hmiss.
  { cbn. destruct Hn as [->|Hn]; [apply lookup_delete_eq|].
    by rewrite lookup_delete_None; right. }
  assert (Z.of_nat (S (length (list.order (ll c1)))) <= maxElementCount c1)%Z
    as Hroom by (cbn; lia).
  exists old, c1, (pushed n c1). split_and!; [done|by apply Add_room_spec| |].
  - rewrite entries_pushed by done. f_equal. by apply entries_unlinked.
  - rewrite Len_eq. unfold list.Len. cbn. do 2 f_equal. lia.
Qed.

(** *** What [Add] returns and what it leaves alone *)

Lemma evicted_was_there (x old : A) (l l' : list A) :
  x :: l = l' ++ [old] -> l ≠ [] -> old ∈ l.
Proof.
  intros Heq Hl. destruct l' as [|y ys]; cbn in Heq; simplify_eq.
  apply elem_of_app. right. by left.
Qed.

(** X10: in a well-formed cache of capacity at least 1, [Add] of [n]
    returns nil exactly when the key of [n] is new and the list is not
    full.  A node it returns was in the cache before; it has the key of
    [n] exactly when that key was in the index (the value replaced), and
    otherwise it is the evicted node, whose key is no longer in the
    index. *)
Theorem Add_result_meaning (c : lruCache A) (n : A) :
  wf c -> (1 <= maxElementCount c)%Z ->
  exists r c', Add (Some n) c = (Ret r, c') ∧
    (r = None <->
       dict c !! skey n = None ∧ (list.Len (ll c) < maxElementCount c)%Z) ∧
    (forall old, r = Some old ->
       old ∈ entries c ∧
       (skey old = skey n <-> is_Some (dict c !! skey n)) ∧
       (skey old ≠ skey n ->
          dict c' !! skey old = None ∧ list.Len (ll c) = list.Len (ll c'))).
Proof.
  intros Hwf Hcap. unfold list.Len.
  destruct (dict c !! skey n) as [e|] eqn:Hd.
  - destruct (Add_hit_spec c n e Hwf Hd) as (old & Hv & Hk & Hin & Hadd).
    exists (Some old), (overwritten e n c). split; [done|]. split.
    + split; [done|]. by intros [? _].
    + intros ? [= <-]. split_and!; [done|by split|done].
  - destruct (Z.le_gt_cases (Z.of_nat (S (length (list.order (ll c)))))
                (maxElementCount c)) as [Hle|Hgt].
    + exists None, (pushed n c). split; [by apply Add_room_spec|].
      split; [|done]. split; [|done]. intros _. split; [done|lia].
    + destruct (Add_evict_spec c n Hwf Hd Hgt)
        as (b & old & Hb & Hv & Hdo & Hadd & Hent).
      pose proof (wf_pushed c n Hwf Hd) as Hwf1.
      pose proof (wf_unlinked _ _ _ Hwf1 Hdo) as Hwf2.
      exists (Some old), (unlinked (skey old) b (pushed n c)).
      split; [done|]. split.
      * split; [done|]. intros [_ ?]. lia.
      * intros ? [= <-].
        assert (old ∈ entries c ∧ skey old ≠ skey n) as [Hin Hne].
        { assert (entries c ≠ []) as Hec.
          { intros Hec. rewrite <- (entries_length c Hwf), Hec in Hgt.
            cbn in Hgt. lia. }
          pose proof (evicted_was_there _ _ _ _ Hent Hec) as Hin.
          split; [done|]. intros Heq.
          apply (not_in_keys c (skey n) Hwf Hd). unfold keys.
          rewrite <- Heq. by apply list_elem_of_fmap_2. }
        split_and!; [done| |].
        -- split; [done|]. by intros [? ?].
        -- intros _. split; [cbn; apply lookup_delete_eq|].
           f_equal. cbn.
           assert (b ∈ list.fresh (ll c) :: list.order (ll c)) as Hbin.
           { apply last_Some in Hb as [es ->]. set_solver. }
           pose proof (unlink_length b _ (wf_NoDup _ Hwf1) Hbin) as Hl.
           cbn in Hl. lia.
Qed.

(** X6: [Add] changes nothing for the keys it does not name: in a
    well-formed cache, for a key that is neither the key of the added
    node nor the key of the node [Add] returns, [Get] and [Has] return
    after the [Add] what they returned before it. *)
Theorem Add_keeps_other_keys (c : lruCache A) (n : A) (key' : list byte) :
  wf c -> bytes_to_string key' ≠ skey n ->
  exists r c', Add (Some n) c = (Ret r, c') ∧
    ((forall old, r = Some old -> skey old ≠ bytes_to_string key') ->
     result_of (Get key' c') = result_of (Get key' c) ∧
     result_of (Has key' c') = result_of (Has key' c)).
Proof.
  intros Hwf Hne. rewrite !Get_result, !Has_result.
  assert (forall k' e', dict c !! k' = Some e' -> e' ≠ list.fresh (ll c))
    as Hfresh.
  { intros k' e' Hd' ->. destruct (wf_dict c Hwf _ _ Hd') as [He' _].
    by apply (wf_fresh_notin c Hwf). }
  destruct (dict c !! skey n) as [e|] eqn:Hd.
  - destruct (Add_hit_spec c n e Hwf Hd) as (old & Hv & Hk & Hin & Hadd).
    exists (Some old), (overwritten e n c). split; [done|]. intros _.
    rewrite !Get_result, !Has_result. cbn. split; [|done].
    destruct (dict c !! bytes_to_string key') as [e'|] eqn:Hd'; [|done].
    rewrite lookup_insert_ne; [done|]. intros ->.
    destruct (wf_dict c Hwf _ _ Hd') as (_ & n' & Hv' & Hk').
    apply Hne. rewrite <- Hk', <- Hk. congruence.
  - destruct (Z.le_gt_cases (Z.of_nat (S (length (list.order (ll c)))))
                (maxElementCount c)) as [Hle|Hgt].
    + exists None, (pushed n c). split; [by apply Add_room_spec|]. intros _.
      rewrite !Get_result, !Has_result. cbn.
      rewrite lookup_insert_ne by done. split; [|done].
      destruct (dict c !! bytes_to_string key') as [e'|] eqn:Hd'; [|done].
      rewrite lookup_insert_ne; [done|]. intros <-. by apply (Hfresh _ _ Hd').
    + destruct (Add_evict_spec c n Hwf Hd Hgt)
        as (b & old & Hb & Hv & Hdo & Hadd & Hent).
      exists (Some old), (unlinked (skey old) b (pushed n c)).
      split; [done|]. intros Hold. specialize (Hold old eq_refl).
      rewrite !Get_result, !Has_result. cbn.
      rewrite lookup_delete_ne, lookup_insert_ne by done. split; [|done].
      destruct (dict c !! bytes_to_string key') as [e'|] eqn:Hd'; [|done].
      rewrite lookup_insert_ne; [done|]. intros <-. by apply (Hfresh _ _ Hd').
Qed.

(** X8: touching the most recently used node changes nothing: when [n]
    is the first node of a well-formed cache, [Add] of [n] and [Get] of
    its key both return [n] and leave the cache exactly as it was. *)
Theorem touch_front_is_noop (c : lruCache A) (n : A) :
  wf c -> head (entries c) = Some n ->
  Add (Some n) c = (Ret (Some n), c) ∧
  Get (GetKey n) c = (Ret (Some n), c).
Proof.
  intros Hwf Hh.
  destruct (front_element c n Hwf Hh) as (e & rest & Ho & Hv & Hd).
  assert (e ∈ list.order (ll c)) as He by (rewrite Ho; by left).
  assert (list.unlink e (list.order (ll c)) = rest) as Hu.
  { rewrite Ho. apply unlink_front. rewrite <- Ho. apply Hwf. }
  split.
  - rewrite (Add_hit_eq c n e n Hd Hv He). f_equal.
    unfold overwritten. rewrite Hu, <- Ho, (insert_id _ _ _ Hv).
    by destruct c as [d m [V o f]].
  - rewrite (Get_hit_eq c (GetKey n) e n Hd Hv He). f_equal.
    unfold fronted. rewrite Hu, <- Ho. by destruct c as [d m [V o f]].
Qed.

(** *** Reading a key that is there *)

(** X12: [Get] of a key that the index of a well-formed cache holds
    returns the node stored under that key and makes it the first of
    the list; the other nodes keep the order they had, and [Len()] and
    the index are unchanged. *)
Theorem Get_present (c : lruCache A) (key : list byte) (e : ptr) :
  wf c -> dict c !! bytes_to_string key = Some e ->
  exists n c',
    Get key c = (Ret (Some n), c') ∧
    node_at c e = Some n ∧ skey n = bytes_to_string key ∧
    wf c' ∧
    entries c' = n :: filter (λ y, skey y ≠ bytes_to_string key) (entries c) ∧
    result_of (Len c') = result_of (Len c) ∧
    dict c' = dict c.
Proof.
  intros Hwf Hd.
  destruct (Get_hit_spec c key e Hwf Hd) as (n & Hv & Hk & Hin & Hget).
  destruct (wf_dict c Hwf _ _ Hd) as [He _].
  pose proof (unlink_length e _ (wf_NoDup c Hwf) He) as Hlen.
  exists n, (fronted e c). split_and!; [done| |done| | | |done].
  - unfold node_at. by rewrite Hv.
  - by apply wf_fronted.
  - by apply entries_fronted.
  - rewrite !Len_eq. cbn. by rewrite Hlen.
Qed.

(** *** How long a node stays *)

Lemma AddAll_behind (ns : list A) c (n : A) (pre post : list A) :
  wf c -> entries c = pre ++ n :: post ->
  NoDup (skey <$> ns) -> (forall m, m ∈ ns -> skey m ∉ keys c) ->
  (Z.of_nat (length pre + length ns) < maxElementCount c)%Z ->
  exists rs c' post', AddAll ns c = (Ret rs, c') ∧ wf c' ∧
    length rs = length ns ∧
    entries c' = reverse ns ++ pre ++ n :: post'.
Proof.
  revert c pre post. induction ns as [|m ns IH]; intros c pre post Hwf Hent Hnd Hnew Hlt.
  - by exists [], c, post.
  - rewrite fmap_cons in Hnd. apply NoDup_cons in Hnd as [Hm Hnd].
    assert (skey m ∉ keys c) as Hmk by (apply Hnew; by left).
    destruct (Add_cases c m Hwf) as (r & c1 & Hadd & Hwf1 & Hmax & Hcase).
    assert (exists post1, entries c1 = (m :: pre) ++ n :: post1 ∧
              forall y, y ∈ post1 -> y ∈ post) as (post1 & Hent1 & Hsub).
    { destruct Hcase as [(? & _)|[(_ & _ & _ & -> & _)
                        |(_ & Hover & _ & old & _ & Hev)]]; [done| |].
      - exists post. by rewrite Hent.
      - rewrite <- entries_count, Hent, length_app in Hover by done.
        cbn in Hover, Hlt. rewrite Hent in Hev.
        destruct (decide (post = [])) as [->|Hpost]; [cbn in Hover; lia|].
        destruct (exists_last Hpost) as (post1 & x & ->).
        exists post1.
        assert (m :: pre ++ n :: post1 ++ [x]
                = ((m :: pre) ++ n :: post1) ++ [x]) as Hre.
        { cbn. by rewrite <- app_assoc. }
        rewrite Hre in Hev. apply app_inj_tail in Hev as [<- _].
        split; [done|]. intros y Hy. apply elem_of_app. by left. }
    destruct (IH c1 (m :: pre) post1)
      as (rs & c' & post' & Hall & Hwf' & Hlen & Hent'); [done|done|done| | |].
    + intros m' Hm'. unfold keys. rewrite Hent1. intros Hin.
      apply list_elem_of_fmap in Hin as (y & Heq & Hy).
      assert (y = m ∨ y ∈ entries c) as [->|Hyc].
      { rewrite Hent. cbn in Hy.
        rewrite elem_of_cons, elem_of_app, elem_of_cons in Hy.
        rewrite elem_of_app, elem_of_cons. naive_solver. }
      * apply Hm. rewrite <- Heq. by apply list_elem_of_fmap_2.
      * apply (Hnew m'); [by right|]. unfold keys. rewrite Heq.
        by apply list_elem_of_fmap_2.
    + rewrite Hmax. cbn in *. lia.
    + exists (r :: rs), c', post'. split_and!; [|done| |].
      * cbn [AddAll]. unfold mbind, M_bind. by rewrite Hadd, Hall.
      * cbn. by rewrite Hlen.
      * rewrite Hent', reverse_cons, <- !app_assoc. done.
Qed.

(** X7: a node stays while fewer new keys than the capacity allows are
    added after it: in a well-formed cache where [j] nodes are in front
    of [n], after adding nodes [ns] with distinct keys that are not in
    the cache, with [j + length ns < maxElementCount], every [Add] has
    returned, [n] is still in the cache, [Get] of its key returns it
    and [Has] of its key returns true. *)
Theorem recently_used_survives (c : lruCache A) (n : A) (ns pre post : list A) :
  wf c -> entries c = pre ++ n :: post ->
  NoDup (skey <$> ns) -> (forall m, m ∈ ns -> dict c !! skey m = None) ->
  (Z.of_nat (length pre + length ns) < maxElementCount c)%Z ->
  exists rs c' c'',
    AddAll ns c = (Ret rs, c') ∧ length rs = length ns ∧
    n ∈ entries c' ∧
    Get (GetKey n) c' = (Ret (Some n), c'') ∧
    Has (GetKey n) c' = (Ret true, c').
Proof.
  intros Hwf Hent Hnd Hnew Hlt.
  destruct (AddAll_behind ns c n pre post Hwf Hent Hnd)
    as (rs & c' & post' & Hall & Hwf' & Hlen & Hent'); [|done|].
  { intros m Hm. apply not_in_keys; [done|]. by apply Hnew. }
  assert (n ∈ entries c') as Hin.
  { rewrite Hent', !elem_of_app, elem_of_cons. by right; right; left. }
  destruct (Get_of_entry c' n Hwf' Hin) as [[c'' Hget] Hhas].
  by exists rs, c', c''.
Qed.

(** *** What a cache holds after a series of insertions *)

Lemma take_push (C : nat) (x old : A) (L l : list A) :
  l ++ [old] = x :: take C L -> C <= length L -> l = take C (x :: L).
Proof.
  intros Heq HC. destruct C as [|C].
  - rewrite take_0 in Heq. destruct l as [|y [|z l]]; by simplify_eq.
  - destruct (lookup_lt_is_Some_2 L C) as [y Hy]; [lia|].
    rewrite (take_S_r L C y Hy), app_comm_cons in Heq.
    by apply app_inj_tail in Heq as [-> _].
Qed.

Lemma AddAll_latest (C : Z) (ns p : list A) c :
  wf c -> maxElementCount c = C ->
  entries c = take (Z.to_nat C) (reverse p) ->
  NoDup (skey <$> (p ++ ns)) ->
  exists rs c', AddAll ns c = (Ret rs, c') ∧ wf c' ∧
    entries c' = take (Z.to_nat C) (reverse (p ++ ns)).
Proof.
  revert p c. induction ns as [|n ns IH]; intros p c Hwf HC Hent Hnd.
  - exists [], c. by rewrite app_nil_r.
  - assert (skey n ∉ keys c) as Hk.
    { unfold keys. rewrite Hent. intros Hin.
      apply list_elem_of_fmap in Hin as (y & Heq & Hy).
      apply (subseteq_take _ _ y) in Hy. rewrite elem_of_reverse in Hy.
      rewrite fmap_app, fmap_cons in Hnd.
      apply NoDup_app in Hnd as (_ & Hdisj & _).
      apply (Hdisj (skey y)).
      + by apply list_elem_of_fmap_2.
      + rewrite <- Heq. by left. }
    destruct (Add_cases c n Hwf) as (r & c1 & Hadd & Hwf1 & Hmax & Hcase).
    assert (length (entries c) = Z.to_nat C `min` length p) as Hlen.
    { by rewrite Hent, length_take, length_reverse. }
    assert (entries c1 = take (Z.to_nat C) (reverse (p ++ [n]))) as Hent1.
    { rewrite reverse_app. cbn.
      destruct Hcase as [(? & _)|[(_ & Hroom & _ & -> & _)
                        |(_ & Hover & _ & old & _ & Hev)]]; [done| |].
      - rewrite <- entries_count, Hlen in Hroom by done.
        rewrite Hent, !take_ge; [done|cbn|]; rewrite length_reverse; lia.
      - rewrite <- entries_count, Hlen in Hover by done.
        rewrite Hent in Hev. symmetry in Hev.
        apply (take_push _ _ _ _ _ Hev). rewrite length_reverse. lia. }
    destruct (IH (p ++ [n]) c1) as (rs & c' & Hall & Hwf' & Hent');
      [done|congruence|done|by rewrite <- app_assoc|].
    exists (r :: rs), c'. split_and!; [|done|].
    + cbn [AddAll]. unfold mbind, M_bind. by rewrite Hadd, Hall.
    + by rewrite Hent', <- app_assoc.
Qed.

(** X11: after adding nodes with distinct keys to a fresh cache of
    capacity [C], every [Add] has returned and the cache holds exactly
    the last [C] of them (none when [C] is zero or less), latest
    first. *)
Theorem AddAll_keeps_latest (C : Z) (ns : list A) :
  NoDup (skey <$> ns) ->
  exists rs c, AddAll ns (New C) = (Ret rs, c) ∧
    entries c = take (Z.to_nat C) (reverse ns).
Proof.
  intros Hnd.
  destruct (AddAll_latest C ns [] (New C)) as (rs & c & Hall & _ & Hent);
    [apply wf_New|done| |done|].
  - symmetry. apply take_nil.
  - by exists rs, c.
Qed.

End further.

(** ** The further properties on a cache of items *)

(** Adding 'c' to a full cache of capacity 2 that holds 'b' and 'a'. *)
Lemma Add_then_Get_witness :
  let c := state_of (AddAll [na; nb] (New 2)) in
  wf c ∧ (1 <= maxElementCount c)%Z ∧
  exists r c1 c2,
    Add (Some nc) c = (Ret r, c1) ∧ Get (GetKey nc) c1 = (Ret (Some nc), c2).
Proof.
  intros c.
  assert (wf c) as Hwf by apply AddAll_wf.
  assert (1 <= maxElementCount c)%Z as Hcap by (vm_compute; discriminate).
  split; [exact Hwf|]. split; [exact Hcap|].
  destruct (Add_then_Get c nc Hwf Hcap) as (r & c1 & c2 & Hadd & _ & Hget & _).
  exists r, c1, c2. split; [exact Hadd|exact Hget].
Defined.

(** A cache that holds 'b' and 'a', and the key 'a'. *)
Lemma Remove_Has_agree_with_Get_witness :
  let c := state_of (AddAll [na; nb] (New 2)) in
  wf c ∧ result_of (Remove (GetKey na) c) = result_of (Get (GetKey na) c).
Proof.
  intros c.
  assert (wf c) as Hwf by apply AddAll_wf.
  split; [exact Hwf|].
  exact (proj1 (Remove_Has_agree_with_Get c (GetKey na) Hwf)).
Defined.

(** Removing 'a' from a cache that holds 'b' and 'a'. *)
Lemma Remove_present_witness :
  let c := state_of (AddAll [na; nb] (New 2)) in
  wf c ∧ dict c !! bytes_to_string (GetKey na) = Some 0 ∧
  exists c', Remove (GetKey na) c = (Ret (Some na), c') ∧ Len c' = (Ret 1%Z, c').
Proof.
  intros c.
  assert (wf c) as Hwf by apply AddAll_wf.
  assert (dict c !! bytes_to_string (GetKey na) = Some 0) as Hd
    by (vm_compute; reflexivity).
  split; [exact Hwf|]. split; [exact Hd|].
  destruct (Remove_present c (GetKey na) 0 Hwf Hd)
    as (n & c' & len & Hrem & Hn & _ & _ & Hlen & Hlen' & _).
  vm_compute in Hn. injection Hn as <-.
  assert (result_of (Len c) = Ret 2%Z) as H2 by (vm_compute; reflexivity).
  rewrite Hlen in H2. unfold result_of in H2. simpl fst in H2.
  injection H2 as H2.
  assert (len = 1%Z) as -> by lia.
  exists c'. split; [exact Hrem|exact Hlen'].
Defined.

(** Removing 'a' from a cache that holds 'b' and 'a', and the key 'b'. *)
Lemma Remove_keeps_other_keys_witness :
  let c := state_of (AddAll [na; nb] (New 2)) in
  wf c ∧ bytes_to_string (GetKey nb) ≠ bytes_to_string (GetKey na) ∧
  result_of (Get (GetKey nb) (state_of (Remove (GetKey na) c)))
  = result_of (Get (GetKey nb) c).
Proof.
  intros c.
  assert (wf c) as Hwf by apply AddAll_wf.
  assert (bytes_to_string (GetKey nb) ≠ bytes_to_string (GetKey na)) as Hne
    by (vm_compute; discriminate).
  split; [exact Hwf|]. split; [exact Hne|].
  exact (proj1 (Remove_keeps_other_keys c (GetKey na) (GetKey nb) Hwf Hne)).
Defined.

(** Removing 'a' from a full cache that holds 'b' and 'a', then adding
    'c'. *)
Lemma Remove_frees_a_slot_witness :
  let c := state_of (AddAll [na; nb] (New 2)) in
  wf c ∧ (list.Len (ll c) <= maxElementCount c)%Z ∧
  is_Some (dict c !! bytes_to_string (GetKey na)) ∧
  dict c !! skey nc = None ∧
  exists old c1 c2,
    Remove (GetKey na) c = (Ret (Some old), c1) ∧
    Add (Some nc) c1 = (Ret None, c2) ∧ entries c2 = [nc; nb].
Proof.
  intros c.
  assert (wf c) as Hwf by apply AddAll_wf.
  assert (list.Len (ll c) <= maxElementCount c)%Z as Hcap
    by (vm_compute; discriminate).
  assert (is_Some (dict c !! bytes_to_string (GetKey na))) as Hin
    by (exists 0; vm_compute; reflexivity).
  assert (dict c !! skey nc = None) as Hout by (vm_compute; reflexivity).
  split; [exact Hwf|]. split; [exact Hcap|]. split; [exact Hin|].
  split; [exact Hout|].
  destruct (Remove_frees_a_slot c (GetKey na) nc Hwf Hcap Hin (or_intror Hout))
    as (old & c1 & c2 & Hrem & Hadd & Hent & _).
  exists old, c1, c2. split; [exact Hrem|]. split; [exact Hadd|].
  rewrite Hent. vm_compute. reflexivity.
Defined.

(** Adding 'c' to a full cache of capacity 2 that holds 'b' and 'a'. *)
Lemma Add_result_meaning_witness :
  let c := state_of (AddAll [na; nb] (New 2)) in
  wf c ∧ (1 <= maxElementCount c)%Z ∧
  exists r c', Add (Some nc) c = (Ret r, c') ∧
    (r = None <->
       dict c !! skey nc = None ∧ (list.Len (ll c) < maxElementCount c)%Z).
Proof.
  intros c.
  assert (wf c) as Hwf by apply AddAll_wf.
  assert (1 <= maxElementCount c)%Z as Hcap by (vm_compute; discriminate).
  split; [exact Hwf|]. split; [exact Hcap|].
  destruct (Add_result_meaning c nc Hwf Hcap) as (r & c' & Hadd & Hnil & _).
  exists r, c'. split; [exact Hadd|exact Hnil].
Defined.

(** Adding 'c' to a full cache that holds 'b' and 'a' evicts 'a'; the
    key 'b' is neither. *)
Lemma Add_keeps_other_keys_witness :
  let c := state_of (AddAll [na; nb] (New 2)) in
  wf c ∧ bytes_to_string (GetKey nb) ≠ skey nc ∧
  exists c', Add (Some nc) c = (Ret (Some na), c') ∧
    result_of (Get (GetKey nb) c') = result_of (Get (GetKey nb) c).
Proof.
  intros c.
  assert (wf c) as Hwf by apply AddAll_wf.
  assert (bytes_to_string (GetKey nb) ≠ skey nc) as Hne
    by (vm_compute; discriminate).
  split; [exact Hwf|]. split; [exact Hne|].
  destruct (Add_keeps_other_keys c nc (GetKey nb) Hwf Hne)
    as (r & c' & Hadd & Hkeep).
  assert (r = Some na) as ->.
  { assert (result_of (Add (Some nc) c) = Ret r) as Hr by (rewrite Hadd; reflexivity).
    vm_compute in Hr. injection Hr as <-. reflexivity. }
  exists c'. split; [exact Hadd|].
  apply Hkeep. intros old Hold. injection Hold as <-.
  vm_compute. discriminate.
Defined.

(** A cache that holds 'b' and 'a', 'b' first. *)
Lemma touch_front_is_noop_witness :
  let c := state_of (AddAll [na; nb] (New 2)) in
  wf c ∧ head (entries c) = Some nb ∧
  Add (Some nb) c = (Ret (Some nb), c).
Proof.
  intros c.
  assert (wf c) as Hwf by apply AddAll_wf.
  assert (head (entries c) = Some nb) as Hh by (vm_compute; reflexivity).
  split; [exact Hwf|]. split; [exact Hh|].
  exact (proj1 (touch_front_is_noop c nb Hwf Hh)).
Defined.

(** A cache of capacity 3 that holds 'a', and the new nodes 'b' and
    'c'. *)
Lemma recently_used_survives_witness :
  let c := state_of (AddAll [na] (New 3)) in
  wf c ∧ entries c = [] ++ na :: [] ∧
  NoDup (skey <$> [nb; nc]) ∧
  (forall m, m ∈ [nb; nc] -> dict c !! skey m = None) ∧
  (Z.of_nat (length (@nil item) + length [nb; nc]) < maxElementCount c)%Z ∧
  exists rs c', AddAll [nb; nc] c = (Ret rs, c') ∧ na ∈ entries c'.
Proof.
  intros c.
  assert (wf c) as Hwf by apply AddAll_wf.
  assert (entries c = [] ++ na :: []) as Hent by (vm_compute; reflexivity).
  assert (NoDup (skey <$> [nb; nc])) as Hnd.
  { refine (bool_decide_unpack _ _). vm_compute. exact I. }
  assert (forall m, m ∈ [nb; nc] -> dict c !! skey m = None) as Hnew.
  { intros m Hm. apply elem_of_cons in Hm as [->|Hm]; [vm_compute; reflexivity|].
    apply elem_of_cons in Hm as [->|Hm]; [vm_compute; reflexivity|].
    apply elem_of_nil in Hm. destruct Hm. }
  assert (Z.of_nat (length (@nil item) + length [nb; nc]) < maxElementCount c)%Z
    as Hlt by (vm_compute; reflexivity).
  split; [exact Hwf|]. split; [exact Hent|]. split; [exact Hnd|].
  split; [exact Hnew|]. split; [exact Hlt|].
  destruct (recently_used_survives c na [nb; nc] [] [] Hwf Hent Hnd Hnew Hlt)
    as (rs & c' & _ & Hall & _ & Hin & _).
  exists rs, c'. split; [exact Hall|exact Hin].
Defined.

(** Capacity 2 and the nodes 'a', 'b', 'c'. *)
Lemma AddAll_keeps_latest_witness :
  NoDup (skey <$> [na; nb; nc]) ∧
  exists rs c, AddAll [na; nb; nc] (New 2) = (Ret rs, c) ∧ entries c = [nc; nb].
Proof.
  assert (NoDup (skey <$> [na; nb; nc])) as Hnd.
  { refine (bool_decide_unpack _ _). vm_compute. exact I. }
  split; [exact Hnd|].
  destruct (AddAll_keeps_latest 2 [na; nb; nc] Hnd) as (rs & c & Hall & Hent).
  exists rs, c. split; [exact Hall|exact Hent].
Defined.

(** Reading 'a' in a cache that holds 'b' and 'a'. *)
Lemma Get_present_witness :
  let c := state_of (AddAll [na; nb] (New 2)) in
  wf c ∧ dict c !! bytes_to_string (GetKey na) = Some 0 ∧
  exists c', Get (GetKey na) c = (Ret (Some na), c') ∧ entries c' = [na; nb].
Proof.
  intros c.
  assert (wf c) as Hwf by apply AddAll_wf.
  assert (dict c !! bytes_to_string (GetKey na) = Some 0) as Hd
    by (vm_compute; reflexivity).
  split; [exact Hwf|]. split; [exact Hd|].
  destruct (Get_present c (GetKey na) 0 Hwf Hd)
    as (n & c' & Hget & Hn & _ & _ & Hent & _).
  vm_compute in Hn. injection Hn as <-.
  exists c'. split; [exact Hget|]. rewrite Hent. vm_compute. reflexivity.
Defined.
